(** * Shallow embedding of xcp's copy pipeline (src/operations.rs)

    The Rust program copies a file or a directory tree.  A walker thread
    ([tree_walker]) sends [Operation]s over a work channel to an executor
    thread ([copy_worker]); both report progress on a stats channel that the
    calling thread drains in [copy_tree].  A non-directory source goes
    through [copy_single_file] instead.

    Modelling conventions.
    - A [PathBuf] is its list of components, as [Path::components] yields
      them; Rust compares paths component-wise, so list equality is path
      equality.  The raw target text of a symbolic link is a [string].
    - The filesystem is a function from physical paths (paths without
      symbolic links on the way) to nodes; a path is looked up component by
      component as the kernel does, following the links met on the way.
      Hard links are outside the model: every file has exactly one name.
      OS failures beyond what the node map explains (EIO, EACCES, EROFS,
      ...) come from a fault oracle; the bulk copy primitive
      [copy_file_bytes] and the liveness of channel receivers are oracles
      too, indexed by the number of calls made so far, so that every theorem
      holds for all behaviours of the concurrently running stages.
    - Effects run in a state-and-error monad whose result is [None] when the
      Rust code does not return: a loop that runs out of fuel, or an
      [open(2)] of a fifo that blocks forever. *)

From Stdlib Require Import String Ascii List Arith NArith Lia Bool.
Import ListNotations.
Open Scope list_scope.

(** ** Paths *)

Inductive component : Type :=
| RootDir
| CurDir
| ParentDir
| Normal (s : string).

Definition component_eq_dec (a b : component) : {a = b} + {a <> b}.
Proof. decide equality; apply string_dec. Defined.

Definition path := list component.

Definition path_eq_dec : forall (p q : path), {p = q} + {p <> q} :=
  list_eq_dec component_eq_dec.

Definition path_eqb (p q : path) : bool :=
  if path_eq_dec p q then true else false.

(** [Path::components] drops every [CurDir] but a leading one. *)
Definition normalize (p : path) : path :=
  let not_cur c := match c with CurDir => false | _ => true end in
  match p with
  | CurDir :: rest => CurDir :: filter not_cur rest
  | _ => filter not_cur p
  end.

(** [Path::join]: an absolute right operand replaces the left one. *)
Definition join (p q : path) : path :=
  match q with
  | RootDir :: _ => normalize q
  | _ => normalize (p ++ q)
  end.

(** [Path::strip_prefix]: component-wise prefix removal. *)
Fixpoint strip_prefix (p base : path) : option path :=
  match base, p with
  | [], _ => Some p
  | b :: base', c :: p' =>
      if component_eq_dec b c then strip_prefix p' base' else None
  | _ :: _, [] => None
  end.

(** [Path::file_name]: the last component when it is a normal one. *)
Definition file_name (p : path) : option string :=
  match last p CurDir, p with
  | _, [] => None
  | Normal s, _ => Some s
  | _, _ => None
  end.

(** [components().last()] *)
Definition last_component (p : path) : option component :=
  match p with
  | [] => None
  | c :: _ => Some (last p c)
  end.

(** [fn empty(path: &Path) -> bool { *path == PathBuf::new() }] *)
Definition empty (p : path) : bool :=
  match p with [] => true | _ => false end.

(** Parsing the text of a symbolic link into components, to follow it. *)
Fixpoint segments (s : string) (acc : string) : list string :=
  match s with
  | EmptyString => [acc]
  | String c s' =>
      if Ascii.eqb c "/"%char then acc :: segments s' EmptyString
      else segments s' (acc ++ String c EmptyString)%string
  end.

Definition to_component (s : string) : option component :=
  if String.eqb s "" then None
  else if String.eqb s "." then None
  else if String.eqb s ".." then Some ParentDir
  else Some (Normal s).

Definition parse_path (t : string) : path :=
  let comps := flat_map (fun s => match to_component s with
                                  | Some c => [c] | None => [] end)
                        (segments t EmptyString) in
  match t with
  | String c _ => if Ascii.eqb c "/"%char then RootDir :: comps else comps
  | EmptyString => comps
  end.

(** ** Filesystem *)

Definition bytes := list Byte.byte.

Inductive node : Type :=
| NFile (data : bytes) (perm : N)
| NDir (dlen : N)
| NLink (target : string)
| NOther.                       (* fifo, socket, device *)

Definition FS := path -> option node.

Definition fs_set (fs : FS) (p : path) (n : node) : FS :=
  fun q => if path_eqb q p then Some n else fs q.

(** [std::fs::FileType] as [crate::utils::FileType] presents it. *)
Inductive FileType : Type := File | Symlink | Dir | Unknown.

Record Metadata := mkMeta { m_kind : FileType; m_len : N; m_perm : N }.

Definition node_meta (n : node) : Metadata :=
  match n with
  | NFile d p => mkMeta File (N.of_nat (List.length d)) p
  | NDir l => mkMeta Dir l 493
  | NLink t => mkMeta Symlink (N.of_nat (String.length t)) 511
  | NOther => mkMeta Unknown 0 0
  end.

(** ** Errors, operations and status updates *)

Inductive IoKind : Type :=
| NotFound | IsADirectory | NotADirectory | AlreadyExists | InvalidInput
| Unsupported | FilesystemLoop
| Other                         (* [io::ErrorKind::Other] *)
| Injected.                     (* a failure outside the node model *)

(** ** Path lookup *)

(** The directory [..] leads to from the directory [acc]; [[]] stands for
    the working directory, whose ancestors the model does not name. *)
Definition parent_dir (acc : path) : path :=
  match acc with
  | [] => [ParentDir]
  | [RootDir] => [RootDir]
  | _ => match last acc CurDir with
         | ParentDir => acc ++ [ParentDir]
         | _ => removelast acc
         end
  end.

Definition is_normal (c : component) : bool :=
  match c with Normal _ => true | _ => false end.

(** One walk over the components [rest] from the directory [acc] already
    reached, as the kernel's path walk does it: a symbolic link met before
    the last component, or at the last one when [follow] is set, is replaced
    by the place its text leads to, found by [rec] from the directory that
    holds the link; before the last component the place reached must be a
    directory (ENOTDIR otherwise) that exists (ENOENT).  The result is the
    physical path of the last component, which need not exist. *)
Fixpoint walk_comps (fs : FS) (rec : path -> path -> path + IoKind) (follow : bool)
         (acc rest : path) : path + IoKind :=
  match rest with
  | [] => inl acc
  | c :: rest' =>
      let reached :=
        match c with
        | RootDir => inl [RootDir]
        | CurDir => inl acc
        | ParentDir => inl (parent_dir acc)
        | Normal _ =>
            match fs (acc ++ [c]) with
            | Some (NLink t) =>
                if follow || negb (empty rest') then rec acc (parse_path t)
                else inl (acc ++ [c])
            | _ => inl (acc ++ [c])
            end
        end in
      match reached with
      | inr k => inr k
      | inl q =>
          if empty rest' then inl q else
          match fs q with
          | Some (NDir _) => walk_comps fs rec follow q rest'
          | Some _ => inr NotADirectory
          | None => if is_normal c then inr NotFound else walk_comps fs rec follow q rest'
          end
      end
  end.

(** Lookup through at most [n] levels of symbolic links (ELOOP past that). *)
Fixpoint res_path (n : nat) (fs : FS) (follow : bool) (acc rest : path) : path + IoKind :=
  walk_comps fs (fun dir text => match n with
                                 | O => inr FilesystemLoop
                                 | S n' => res_path n' fs true dir text
                                 end) follow acc rest.

(** The physical path [p] names, the last link followed ([resolve]) or not
    ([lresolve]); the kernel allows 40 links. *)
Definition resolve (fs : FS) (p : path) : path + IoKind := res_path 40 fs true [] p.
Definition lresolve (fs : FS) (p : path) : path + IoKind := res_path 40 fs false [] p.

(** The node [p] names: [Path::metadata] when [follow] is set,
    [Path::symlink_metadata] otherwise. *)
Definition lookup (fs : FS) (follow : bool) (p : path) : node + IoKind :=
  match res_path 40 fs follow [] p with
  | inl q => match fs q with Some n => inl n | None => inr NotFound end
  | inr k => inr k
  end.

(** [Path::metadata], its error dropped (links followed). *)
Definition stat (fs : FS) (p : path) : option node :=
  match lookup fs true p with inl n => Some n | inr _ => None end.

Definition path_exists (fs : FS) (p : path) : bool :=
  match stat fs p with Some _ => true | None => false end.

Definition is_file (fs : FS) (p : path) : bool :=
  match stat fs p with Some (NFile _ _) => true | _ => false end.

Definition is_dir (fs : FS) (p : path) : bool :=
  match stat fs p with Some (NDir _) => true | _ => false end.

Inductive XcpError : Type :=
| IoError (k : IoKind)
| SendError                     (* [mpsc::SendError]: receiver dropped *)
| StripPrefixError
| WalkError
| InvalidSource
| UnknownFilename
| DestinationExists (p : path)
| UnknownFiletype (p : path)
| GitignoreError                (* [GitignoreBuilder::build] failed *)
| EarlyShutdown.

Inductive Operation : Type :=
| Copy (from to : path)
| Link (target : string) (to : path)
| CreateDir (dir : path)
| End.

Inductive StatusUpdate : Type :=
| Size (n : N)
| Copied (n : N).

(** What travels on the stats channel: [Result<StatusUpdate>]. *)
Definition StatMsg := (StatusUpdate + XcpError)%type.

(** ** A state, error and divergence monad *)

Definition M (S A : Type) := S -> option ((A + XcpError) * S).

Definition ret {S A} (a : A) : M S A := fun s => Some (inl a, s).
Definition throw {S A} (e : XcpError) : M S A := fun s => Some (inr e, s).
Definition diverge {S A} : M S A := fun _ => None.

Definition bind {S A B} (m : M S A) (k : A -> M S B) : M S B :=
  fun s => match m s with
           | Some (inl a, s') => k a s'
           | Some (inr e, s') => Some (inr e, s')
           | None => None
           end.

Notation "'let*' x ':=' m 'in' k" := (bind m (fun x => k))
  (at level 200, x name, m at level 100, k at level 200).
Notation "m ;; k" := (bind m (fun _ => k)) (at level 100, right associativity).

(** [let _res = m;]: the error is dropped, the state changes are kept. *)
Definition discard {S A} (m : M S A) : M S unit :=
  fun s => match m s with
           | Some (_, s') => Some (inl tt, s')
           | None => None
           end.

(** [opt.ok_or(e)?] *)
Definition ok_or {S A} (o : option A) (e : XcpError) : M S A :=
  match o with Some a => ret a | None => throw e end.

(** ** The world both stages act on *)

(** Calls to the OS that may fail for reasons outside the node model. *)
Inductive OsCall : Type :=
| OpOpen (p : path)
| OpCreate (p : path)
| OpMeta (p : path)
| OpSetPerm (p : path)
| OpMkdir (p : path)
| OpSymlink (p : path)
(** opening the fifo [p] waits forever: no process opens its other end *)
| OpBlock (p : path).

(** Filesystem actions, in the order they happen. *)
Inductive XEvent : Type :=
| EvCreate (p : path)
| EvTransfer (p : path) (n : N)
| EvSetPerm (p : path) (perm : N)
| EvMkdir (p : path)
| EvSymlink (target : string) (p : path).

(** Messages delivered on the two channels, in the order they are sent. *)
Inductive Msg : Type :=
| MWork (op : Operation)
| MStat (m : StatMsg).

Record World := mkW {
  w_fs : FS;
  w_ncopy : nat;                (* calls of the copy primitive so far *)
  w_nstat : nat;                (* send attempts on the stats channel *)
  w_nwork : nat;                (* send attempts on the work channel *)
  w_out : list Msg;             (* messages delivered *)
  w_log : list XEvent           (* filesystem actions *)
}.

Definition set_fs (w : World) (fs : FS) (ev : XEvent) : World :=
  mkW fs (w_ncopy w) (w_nstat w) (w_nwork w) (w_out w) (w_log w ++ [ev]).

(** Where a [BatchUpdater] forwards its updates: the stats channel, the
    progress bar of a single-file copy, or nowhere. *)
Inductive Sink : Type := ChannelSink | ProgressSink | NopSink.

Record BatchUpdater := mkBU {
  bu_sender : Sink;
  bu_stat : StatusUpdate;       (* the tag: [Size(0)] or [Copied(0)] *)
  bu_batch_size : N
}.

Definition retag (s : StatusUpdate) (n : N) : StatusUpdate :=
  match s with Size _ => Size n | Copied _ => Copied n end.

(** [write_at dst pos chunk]: [chunk] written over [dst] at offset [pos]. *)
Definition write_at (dst : bytes) (pos : N) (chunk : bytes) : bytes :=
  firstn (N.to_nat pos) dst ++ chunk ++ skipn (N.to_nat pos + List.length chunk) dst.

Section Stages.

(** Injected OS failures. *)
Variable fault : OsCall -> bool.
(** The answer of the [k]-th call of the bulk copy primitive to a request
    for [n] bytes: a byte count or an I/O error. *)
Variable xfer : nat -> N -> (N + IoKind).
(** Whether the stats receiver is still alive at the [k]-th send. *)
Variable stat_alive : nat -> bool.
(** Whether the work receiver is still alive at the [k]-th send. *)
Variable work_alive : nat -> bool.

(** [mpsc::Sender::send] on the stats channel. *)
Definition send_stat (m : StatMsg) : M World unit := fun w =>
  let k := w_nstat w in
  if stat_alive k
  then Some (inl tt, mkW (w_fs w) (w_ncopy w) (S k) (w_nwork w)
                        (w_out w ++ [MStat m]) (w_log w))
  else Some (inr SendError, mkW (w_fs w) (w_ncopy w) (S k) (w_nwork w)
                               (w_out w) (w_log w)).

(** [mpsc::Sender::send] on the work channel. *)
Definition send_work (op : Operation) : M World unit := fun w =>
  let k := w_nwork w in
  if work_alive k
  then Some (inl tt, mkW (w_fs w) (w_ncopy w) (w_nstat w) (S k)
                        (w_out w ++ [MWork op]) (w_log w))
  else Some (inr SendError, mkW (w_fs w) (w_ncopy w) (w_nstat w) (S k)
                               (w_out w) (w_log w)).

(** Modelled from the spec: [BatchUpdater::update] (crate::progress is not
    in src/).  The spec: the sink "accept[s] a result that is either a
    byte-count delta or a terminal error, and forward[s] it toward the
    Aggregator"; the active sink "forwards every delta", tagged [Size] for
    the walker and [Copied] for the executor; the null sink skips the
    accounting; a send fails once the receiver has been dropped. *)
Definition update (bu : BatchUpdater) (r : N + XcpError) : M World unit :=
  match bu_sender bu with
  | ChannelSink =>
      send_stat (match r with
                 | inl n => inl (retag (bu_stat bu) n)
                 | inr e => inr e
                 end)
  | ProgressSink | NopSink => ret tt
  end.

(** [File::open]: opening a fifo waits for a writer. *)
Definition file_open (p : path) : M World path := fun w =>
  if fault (OpOpen p) then Some (inr (IoError Injected), w) else
  match resolve (w_fs w) p with
  | inr k => Some (inr (IoError k), w)
  | inl q =>
      match w_fs w q with
      | Some NOther => if fault (OpBlock q) then None else Some (inl q, w)
      | Some _ => Some (inl q, w)
      | None => Some (inr (IoError NotFound), w)
      end
  end.

(** The parent of [q] is a directory (or the working directory). *)
Definition parent_ok (fs : FS) (q : path) : bool :=
  match removelast q with
  | [] => true
  | par => is_dir fs par
  end.

(** [File::create]: truncates an existing file, creates a missing one
    (mode 0o644) in an existing directory.  An existing special file is
    opened for writing as it is, not truncated: a device at once, a fifo
    once a reader appears (it blocks forever otherwise); a socket refuses
    (ENXIO, a fault). *)
Definition file_create (p : path) : M World path := fun w =>
  if fault (OpCreate p) then Some (inr (IoError Injected), w) else
  let fs := w_fs w in
  match resolve fs p with
  | inr k => Some (inr (IoError k), w)
  | inl q =>
      match fs q with
      | Some (NFile _ perm) => Some (inl q, set_fs w (fs_set fs q (NFile [] perm)) (EvCreate q))
      | Some (NDir _) => Some (inr (IoError IsADirectory), w)
      | Some NOther => if fault (OpBlock q) then None else Some (inl q, set_fs w fs (EvCreate q))
      | Some (NLink _) => Some (inr (IoError FilesystemLoop), w)  (* a link left unfollowed *)
      | None =>
          if parent_ok fs q
          then Some (inl q, set_fs w (fs_set fs q (NFile [] 420)) (EvCreate q))
          else Some (inr (IoError NotFound), w)
      end
  end.

(** [File::metadata] on an open descriptor. *)
Definition fd_metadata (fd : path) : M World Metadata := fun w =>
  if fault (OpMeta fd) then Some (inr (IoError Injected), w) else
  match w_fs w fd with
  | Some n => Some (inl (node_meta n), w)
  | None => Some (inr (IoError NotFound), w)
  end.

(** [File::set_permissions] on an open descriptor. *)
Definition set_permissions (fd : path) (perm : N) : M World unit := fun w =>
  if fault (OpSetPerm fd) then Some (inr (IoError Injected), w) else
  match w_fs w fd with
  | Some (NFile d _) =>
      Some (inl tt, set_fs w (fs_set (w_fs w) fd (NFile d perm)) (EvSetPerm fd perm))
  | Some NOther => Some (inl tt, set_fs w (w_fs w) (EvSetPerm fd perm))
  | _ => Some (inr (IoError InvalidInput), w)
  end.

(** Modelled from the spec: [crate::os::copy_file_bytes] (not in src/), the
    bulk primitive "transfer(src_handle, dst_handle, max_bytes) ->
    bytes_transferred".  Both descriptors sit at offset [pos], the number of
    bytes moved so far; the count comes from [xfer], the bytes from the
    source at that offset. *)
Definition copy_file_bytes (infd outfd : path) (pos n : N) : M World N := fun w =>
  let k := w_ncopy w in
  let w1 := mkW (w_fs w) (S k) (w_nstat w) (w_nwork w) (w_out w) (w_log w) in
  match w_fs w infd, w_fs w outfd with
  | Some (NFile src _), Some (NFile dst perm) =>
      match xfer k n with
      | inl r =>
          let chunk := firstn (N.to_nat r) (skipn (N.to_nat pos) src) in
          Some (inl r, set_fs w1 (fs_set (w_fs w) outfd (NFile (write_at dst pos chunk) perm))
                              (EvTransfer outfd r))
      | inr e => Some (inr (IoError e), w1)
      end
  | _, _ => Some (inr (IoError InvalidInput), w1)
  end.

(** The [while written < len] loop of [copy_file]; one unit of fuel per
    iteration. *)
Fixpoint copy_loop (fuel : nat) (infd outfd : path) (updates : BatchUpdater)
         (len written : N) : M World N :=
  if (written <? len)%N then
    match fuel with
    | O => diverge
    | S fuel' =>
        let bytes_to_copy := N.min (len - written) (bu_batch_size updates) in
        let* result := copy_file_bytes infd outfd written bytes_to_copy in
        let written := (written + result)%N in
        update updates (inl result) ;;
        copy_loop fuel' infd outfd updates len written
    end
  else ret written.

(** [fn copy_file(from, to, updates) -> Result<u64>] *)
Definition copy_file (fuel : nat) (from to : path) (updates : BatchUpdater) : M World N :=
  let* infd := file_open from in
  let* outfd := file_create to in
  let* metadata := fd_metadata infd in
  let perm := m_perm metadata in
  let len := m_len metadata in
  let* written := copy_loop fuel infd outfd updates len 0 in
  set_permissions outfd perm ;;
  ret written.

(** The value of [crate::progress::BATCH_DEFAULT] (not in src/). *)
Variable BATCH_DEFAULT : N.

(** [usize::max_value() as u64] on a 64-bit target. *)
Definition usize_max : N := 18446744073709551615.

Definition get_fs : M World FS := fun w => Some (inl (w_fs w), w).

(** [Path::metadata] (follows links). *)
Definition path_metadata (p : path) : M World Metadata := fun w =>
  if fault (OpMeta p) then Some (inr (IoError Injected), w) else
  match lookup (w_fs w) true p with
  | inl n => Some (inl (node_meta n), w)
  | inr k => Some (inr (IoError k), w)
  end.

(** [std::os::unix::fs::symlink(target, to)]: stores [target] as it is at
    [to] (a link there is not followed); fails when [to] is taken or its
    parent is missing. *)
Definition symlink (target : string) (to : path) : M World unit := fun w =>
  if fault (OpSymlink to) then Some (inr (IoError Injected), w) else
  let fs := w_fs w in
  match lresolve fs to with
  | inr k => Some (inr (IoError k), w)
  | inl q =>
      match fs q with
      | Some _ => Some (inr (IoError AlreadyExists), w)
      | None =>
          if parent_ok fs q
          then Some (inl tt, set_fs w (fs_set fs q (NLink target)) (EvSymlink target q))
          else Some (inr (IoError NotFound), w)
      end
  end.

(** [mkdir(2)] as [DirBuilder] calls it: fails on any existing node at [p]
    (a link there is not followed). *)
Definition mkdir (p : path) : M World unit := fun w =>
  if fault (OpMkdir p) then Some (inr (IoError Injected), w) else
  let fs := w_fs w in
  match lresolve fs p with
  | inr k => Some (inr (IoError k), w)
  | inl q =>
      match fs q with
      | Some _ => Some (inr (IoError AlreadyExists), w)
      | None =>
          if parent_ok fs q
          then Some (inl tt, set_fs w (fs_set fs q (NDir 4096)) (EvMkdir q))
          else Some (inr (IoError NotFound), w)
      end
  end.

(** [Path::parent] *)
Definition parent (p : path) : option path :=
  match p with
  | [] | [RootDir] => None
  | _ => Some (removelast p)
  end.

Definition is_not_found (e : XcpError) : bool :=
  match e with IoError NotFound => true | _ => false end.

(** [std::fs::create_dir_all], i.e. [DirBuilder::create_dir_all] of the
    standard library: [mkdir p]; when that fails because a parent is
    missing, create the parent the same way and [mkdir p] again; a failure
    on a path that is by then a directory counts as success.  [n] bounds the
    recursion; [length p] is enough. *)
Fixpoint create_dir_all_n (n : nat) (p : path) : M World unit := fun w =>
  if empty p then Some (inl tt, w) else
  match mkdir p w with
  | None => None
  | Some (inl _, w1) => Some (inl tt, w1)
  | Some (inr e, w1) =>
      if is_not_found e then
        match parent p, n with
        | None, _ => Some (inr (IoError Other), w1)   (* failed to create whole tree *)
        | Some _, O => None                             (* not reached *)
        | Some par, S n' =>
            match create_dir_all_n n' par w1 with
            | Some (inl _, w2) =>
                match mkdir p w2 with
                | None => None
                | Some (inl _, w3) => Some (inl tt, w3)
                | Some (inr e', w3) =>
                    if is_dir (w_fs w3) p then Some (inl tt, w3) else Some (inr e', w3)
                end
            | r => r
            end
        end
      else if is_dir (w_fs w1) p then Some (inl tt, w1) else Some (inr e, w1)
  end.

Definition create_dir_all (p : path) : M World unit := create_dir_all_n (length p) p.

(** [fn copy_worker(work, updates)]: [work] is the sequence of operations
    the receiver yields until the channel closes. *)
Fixpoint copy_worker (fuel : nat) (work : list Operation) (updates : BatchUpdater)
  : M World unit :=
  match work with
  | [] => ret tt
  | op :: rest =>
      match op with
      | Copy from to =>
          discard (copy_file fuel from to updates) ;;
          copy_worker fuel rest updates
      | Link from to =>
          discard (symlink from to) ;;
          copy_worker fuel rest updates
      | CreateDir dir =>
          create_dir_all dir ;;
          let* m := path_metadata dir in
          update updates (inl (m_len m)) ;;
          copy_worker fuel rest updates
      | End => ret tt
      end
  end.

(** [crate::Opts], the fields the module reads. *)
Record Opts := mkOpts {
  dest : path;
  noclobber : bool;
  noprogress : bool;
  gitignore : bool
}.

(** The filesystem as the walker observes it while it handles its [t]-th
    entry ([t = 0]: before the walk); the executor changes it concurrently. *)
Variable view : nat -> FS.

Definition lift {A} (r : A + XcpError) : M World A :=
  match r with inl a => ret a | inr e => throw e end.

(** [Path::symlink_metadata] *)
Definition symlink_metadata (fs : FS) (p : path) : M World Metadata :=
  match lookup fs false p with
  | inl n => ret (node_meta n)
  | inr k => throw (IoError k)
  end.

(** [Path::metadata] as the walker calls it. *)
Definition walk_metadata (fs : FS) (p : path) : M World Metadata :=
  match lookup fs true p with
  | inl n => ret (node_meta n)
  | inr k => throw (IoError k)
  end.

(** [std::fs::read_link]: the raw text, neither resolved nor checked. *)
Definition read_link (fs : FS) (p : path) : M World string :=
  match lookup fs false p with
  | inl (NLink t) => ret t
  | inl _ => throw (IoError InvalidInput)
  | inr k => throw (IoError k)
  end.

(** The destination of an entry: [target_base] joined with its path
    relative to [source]. *)
Definition entry_target (target_base rel : path) : path :=
  if negb (empty rel) then join target_base rel else target_base.

(** The body of the [for entry in WalkDir::new(&source)...] loop. *)
Definition walk_entry (t : nat) (source target_base : path) (opts : Opts)
           (updates : BatchUpdater) (entry : path + XcpError) : M World unit :=
  let fs := view t in
  let* from := lift entry in
  let* meta := symlink_metadata fs from in
  let* rel := ok_or (strip_prefix from source) StripPrefixError in
  let target := entry_target target_base rel in
  if path_exists fs target && noclobber opts then
    send_work End ;;
    update updates (inr (DestinationExists target)) ;;
    throw EarlyShutdown
  else
    match m_kind meta with
    | File =>
        update updates (inl (m_len meta)) ;;
        send_work (Copy from target)
    | Symlink =>
        let* lfile := read_link fs from in
        send_work (Link lfile target)
    | Dir =>
        send_work (CreateDir target) ;;
        let* m := walk_metadata fs from in
        update updates (inl (m_len m))
    | Unknown =>
        send_work End ;;
        update updates (inr (UnknownFiletype target))
    end.

Fixpoint walk_entries (t : nat) (source target_base : path) (opts : Opts)
         (updates : BatchUpdater) (entries : list (path + XcpError)) : M World unit :=
  match entries with
  | [] => ret tt
  | e :: rest =>
      walk_entry t source target_base opts updates e ;;
      walk_entries (S t) source target_base opts updates rest
  end.

(** The destination base, decided once before the walk. *)
Definition target_base_of (fs : FS) (source_dir : component) (opts : Opts) : path :=
  if path_exists fs (dest opts) then join (dest opts) [source_dir] else dest opts.

(** [fn tree_walker(source, opts, work_tx, updates)]: [ignore_builds] is
    whether [GitignoreBuilder::build] succeeds (it reads [.gitignore]);
    [entries] is what [WalkDir::new(&source).into_iter().filter_entry(..)]
    yields, the ignore filter applied. *)
Definition tree_walker (source : path) (opts : Opts) (ignore_builds : bool)
           (entries : list (path + XcpError)) (updates : BatchUpdater) : M World unit :=
  let* sourcedir := ok_or (last_component source) InvalidSource in
  let target_base := target_base_of (view 0) sourcedir opts in
  (if gitignore opts && negb ignore_builds then throw GitignoreError else ret tt) ;;
  walk_entries 1 source target_base opts updates entries ;;
  send_work End.

(** [fn copy_single_file(source, opts)] *)
Definition copy_single_file (fuel : nat) (source : path) (opts : Opts) : M World unit :=
  let* fs := get_fs in
  let* dest :=
    if is_dir fs (dest opts)
    then let* fname := ok_or (file_name source) UnknownFilename in
         ret (join (dest opts) [Normal fname])
    else ret (dest opts) in
  if is_file fs dest && noclobber opts
  then throw (IoError AlreadyExists)
  else
    let* copy_stat :=
      if noprogress opts
      then ret (mkBU NopSink (Copied 0) usize_max)
      else let* m := path_metadata source in
           ret (mkBU ProgressSink (Copied 0) BATCH_DEFAULT) in
    copy_file fuel source dest copy_stat ;;
    ret tt.

End Stages.

(** ** The aggregator, [copy_tree] *)

Inductive Stage : Type := ExecutorStage | WalkerStage.

(** What the calling thread does, in order. *)
Inductive TEvent : Type :=
| Spawn (s : Stage)
| Join (s : Stage)
| SetSize (n : N)
| SetPosition (n : N)
| PbEnd.

(** [a += b] on [u64] in a release build: modulo [2^64] (a debug build
    panics instead). *)
Definition add_u64 (a b : N) : N := ((a + b) mod 2 ^ 64)%N.

(** The [for stat in stat_rx] loop and what follows it; [stats] is what the
    receiver yields until the channel closes. *)
Fixpoint drain (stats : list StatMsg) (copied total : N) : (unit + XcpError) * list TEvent :=
  match stats with
  | [] => (inl tt, [PbEnd])
  | stat :: rest =>
      match stat with
      | inr e => (inr e, [])
      | inl (Size s) =>
          let total := add_u64 total s in
          let '(r, evs) := drain rest copied total in (r, SetSize total :: evs)
      | inl (Copied s) =>
          let copied := add_u64 copied s in
          let '(r, evs) := drain rest copied total in (r, SetPosition copied :: evs)
      end
  end.

(** [fn copy_tree(source, opts)]: the two stages are spawned, their join
    handles kept in [_copy_worker] and [_walk_worker], and the stats channel
    drained. *)
Definition copy_tree (stats : list StatMsg) : (unit + XcpError) * list TEvent :=
  let '(r, evs) := drain stats 0 0 in
  (r, Spawn ExecutorStage :: Spawn WalkerStage :: evs).

(** The stats messages among delivered messages. *)
Fixpoint stats_of (out : list Msg) : list StatMsg :=
  match out with
  | [] => []
  | MStat m :: rest => m :: stats_of rest
  | MWork _ :: rest => stats_of rest
  end.

(** The operations among delivered messages. *)
Fixpoint work_of (out : list Msg) : list Operation :=
  match out with
  | [] => []
  | MWork op :: rest => op :: work_of rest
  | MStat _ :: rest => work_of rest
  end.

(** [l] is an interleaving of [l1] and [l2]: how the stats channel merges
    the messages of the two stages. *)
Inductive interleave {A} : list A -> list A -> list A -> Prop :=
| il_nil : interleave [] [] []
| il_left x l1 l2 l : interleave l1 l2 l -> interleave (x :: l1) l2 (x :: l)
| il_right x l1 l2 l : interleave l1 l2 l -> interleave l1 (x :: l2) (x :: l).

(** ** Concrete settings and auxiliary notions used by the statements *)

Definition sumN (l : list N) : N := fold_right N.add 0%N l.

(** The concrete setting of the C1 counterexample: a three-byte source
    [/a], a missing destination [/b], an OS without faults, a copy
    primitive that always moves what is asked, and a stats channel whose
    receiver has been dropped (as [copy_tree] does once it has returned). *)
Definition ex_a : path := [RootDir; Normal "a"].
Definition ex_b : path := [RootDir; Normal "b"].
Definition ex_fs : FS := fun p =>
  if path_eqb p [RootDir] then Some (NDir 4096)
  else if path_eqb p ex_a then Some (NFile [Byte.x41; Byte.x42; Byte.x43] 384)
  else None.
Definition ex_w : World := mkW ex_fs 0 0 0 [] [].
Definition no_fault : OsCall -> bool := fun _ => false.
Definition xfer_all : nat -> N -> (N + IoKind) := fun _ n => inl n.
Definition receiver_dropped : nat -> bool := fun _ => false.
Definition exec_updater : BatchUpdater := mkBU ChannelSink (Copied 0) 2.

Definition alive : nat -> bool := fun _ => true.

Definition ex_w1 : World :=
  set_fs ex_w (fs_set ex_fs ex_b (NFile [] 420)) (EvCreate ex_b).

Definition xfer_one : nat -> N -> (N + IoKind) := fun _ _ => inl 1%N.
Definition xfer_zero : nat -> N -> (N + IoKind) := fun _ _ => inl 0%N.

(** The destination path a delivered message carries, if any. *)
Definition op_dest (op : Operation) : option path :=
  match op with
  | Copy _ t | Link _ t | CreateDir t => Some t
  | End => None
  end.

Definition msg_dest (m : Msg) : option path :=
  match m with
  | MWork op => op_dest op
  | MStat (inr (DestinationExists t)) | MStat (inr (UnknownFiletype t)) => Some t
  | MStat _ => None
  end.

(** [m] keeps the invariant [I] of the world. *)
Definition preserves {A} (I : World -> Prop) (m : M World A) : Prop :=
  forall w r w', I w -> m w = Some (r, w') -> I w'.

(** A small source tree [/a] holding a fifo [/a/f], a file [/a/g] and a
    symbolic link [/a/l] whose text is ["../x"] (dangling); a destination
    directory [/d] that already holds [/d/a] and [/d/a/l]. *)
Definition ex_src : path := [RootDir; Normal "a"].
Definition ex_f : path := ex_src ++ [Normal "f"].
Definition ex_g : path := ex_src ++ [Normal "g"].
Definition ex_l : path := ex_src ++ [Normal "l"].
Definition ex_d : path := [RootDir; Normal "d"].
Definition ex_e : path := [RootDir; Normal "e"].
Definition ex_tree : FS := fun p =>
  if path_eqb p [RootDir] then Some (NDir 4096)
  else if path_eqb p ex_src then Some (NDir 4096)
  else if path_eqb p ex_f then Some NOther
  else if path_eqb p ex_g then Some (NFile [Byte.x41] 384)
  else if path_eqb p ex_l then Some (NLink "../x")
  else if path_eqb p ex_d then Some (NDir 4096)
  else if path_eqb p (ex_d ++ [Normal "a"]) then Some (NDir 4096)
  else if path_eqb p (ex_d ++ [Normal "a"; Normal "l"]) then Some (NFile [] 420)
  else None.
(** What [WalkDir] yields for [/a], the root first. *)
Definition ex_entries : list (path + XcpError) := [inl ex_src; inl ex_f; inl ex_g; inl ex_l].
Definition ex_entries_nofifo : list (path + XcpError) := [inl ex_src; inl ex_g; inl ex_l].
Definition walk_updater : BatchUpdater := mkBU ChannelSink (Size 0) 2.
Definition ex_world : World := mkW ex_tree 0 0 0 [] [].
Definition opts_into (d : path) (nc : bool) : Opts := mkOpts d nc false false.

(** A source root [/s] that is a symbolic link to the directory [/r],
    which holds a fifo [/r/f] and a file [/r/x]; the destination [/e] is
    missing.  [WalkDir] follows a root that is a link (and only the root),
    so it yields [/s], [/s/f] and [/s/x]. *)
Definition c3_src : path := [RootDir; Normal "s"].
Definition c3_fs : FS := fun p =>
  if path_eqb p [RootDir] then Some (NDir 4096)
  else if path_eqb p c3_src then Some (NLink "/r")
  else if path_eqb p [RootDir; Normal "r"] then Some (NDir 4096)
  else if path_eqb p [RootDir; Normal "r"; Normal "f"] then Some NOther
  else if path_eqb p [RootDir; Normal "r"; Normal "x"] then Some (NFile [Byte.x41] 420)
  else None.
Definition c3_entries : list (path + XcpError) :=
  [inl c3_src; inl (c3_src ++ [Normal "f"]); inl (c3_src ++ [Normal "x"])].
Definition c3_world : World := mkW c3_fs 0 0 0 [] [].
(** The tree once the executor has made the link [/e] -> ["/r"]. *)
Definition c3_fs_after : FS := fs_set c3_fs ex_e (NLink "/r").
(** The walker sees the executor's link from its third entry on. *)
Definition c3_view (t : nat) : FS := if t <? 3 then c3_fs else c3_fs_after.
(** The executor takes two operations and stops at the [End] of the second:
    the work receiver is gone from the third send on. *)
Definition c3_work_alive (k : nat) : bool := k <? 2.

(** A file [/a] and a destination directory [/d] that already holds a
    directory named [a]. *)
Definition ex_fs_dir_clash : FS := fun p =>
  if path_eqb p [RootDir] then Some (NDir 4096)
  else if path_eqb p ex_a then Some (NFile [Byte.x41; Byte.x42; Byte.x43] 384)
  else if path_eqb p ex_d then Some (NDir 4096)
  else if path_eqb p (ex_d ++ [Normal "a"]) then Some (NDir 4096)
  else None.
Definition ex_w_dir_clash : World := mkW ex_fs_dir_clash 0 0 0 [] [].
(** The same, [/d/a] being a fifo instead. *)
Definition ex_fs_fifo_clash : FS := fun p =>
  if path_eqb p (ex_d ++ [Normal "a"]) then Some NOther else ex_fs_dir_clash p.
Definition ex_w_fifo_clash : World := mkW ex_fs_fifo_clash 0 0 0 [] [].
(** No process opens the other end of any fifo; nothing else fails. *)
Definition no_reader (c : OsCall) : bool :=
  match c with OpBlock _ => true | _ => false end.

(** The destination [copy_single_file] computes before its no-clobber test. *)
Definition single_dest (fs : FS) (source : path) (opts : Opts) : option path :=
  if is_dir fs (dest opts)
  then option_map (fun fname => join (dest opts) [Normal fname]) (file_name source)
  else Some (dest opts).

(** An OS on which creating a directory fails. *)
Definition mkdir_fault : OsCall -> bool := fun c =>
  match c with OpMkdir _ => true | _ => false end.

(** A message the executor may deliver: a progress statistic, never an
    error. *)
Definition exec_good (m : Msg) : Prop := exists u, m = MStat (inl u).

(** The world's filesystem and operation log are [fs0] and [log0]. *)
Definition disk_is (fs0 : FS) (log0 : list XEvent) (w : World) : Prop :=
  w_fs w = fs0 /\ w_log w = log0.

(** The sums of the [Size] and of the [Copied] deltas of a stats stream. *)
Fixpoint size_total (s : list StatMsg) : N :=
  match s with
  | [] => 0
  | inl (Size n) :: r => n + size_total r
  | _ :: r => size_total r
  end.

Fixpoint copied_total (s : list StatMsg) : N :=
  match s with
  | [] => 0
  | inl (Copied n) :: r => n + copied_total r
  | _ :: r => copied_total r
  end.

(** The length and the position of the progress bar after the events [evs],
    from length [len] and position [pos]. *)
Fixpoint bar_after (evs : list TEvent) (len pos : N) : N * N :=
  match evs with
  | [] => (len, pos)
  | SetSize n :: r => bar_after r n pos
  | SetPosition n :: r => bar_after r len n
  | _ :: r => bar_after r len pos
  end.

(** * Properties *)

(** ** Helper lemmas *)

Lemma fs_set_same fs p n : fs_set fs p n p = Some n.
Proof. unfold fs_set, path_eqb. destruct (path_eq_dec p p); congruence. Qed.

Lemma fs_set_other fs p q n : q <> p -> fs_set fs p n q = fs q.
Proof. intro H. unfold fs_set, path_eqb. destruct (path_eq_dec q p); congruence. Qed.

Lemma firstn_plus {A} (n m : nat) (l : list A) :
  firstn (n + m) l = firstn n l ++ firstn m (skipn n l).
Proof.
  revert l; induction n as [|n IH]; intros [|x l]; simpl; auto.
  - destruct m; reflexivity.
  - now rewrite IH.
Qed.

Lemma write_at_append (src : bytes) (pos r : nat) :
  pos + r <= length src ->
  write_at (firstn pos src) (N.of_nat pos) (firstn r (skipn pos src)) = firstn (pos + r) src.
Proof.
  intro H. unfold write_at. rewrite Nat2N.id.
  rewrite (@firstn_all2 _ pos (firstn pos src)) by (rewrite length_firstn; lia).
  rewrite (@skipn_all2 _ _ (firstn pos src)) by (rewrite length_firstn; lia).
  rewrite app_nil_r. symmetry. apply firstn_plus.
Qed.

(** [update] only appends to the delivered messages. *)
Lemma update_fs sa bu r w r' w' :
  update sa bu r w = Some (r', w') ->
  w_fs w' = w_fs w /\ w_log w' = w_log w /\ w_ncopy w' = w_ncopy w.
Proof.
  unfold update, send_stat, ret. destruct (bu_sender bu); intro H.
  - destruct (sa (w_nstat w)); inversion H; subst; auto.
  - inversion H; subst; auto.
  - inversion H; subst; auto.
Qed.

Lemma update_ok sa bu r w :
  (forall k, sa k = true) ->
  exists w', update sa bu r w = Some (inl tt, w').
Proof.
  intro Hs. unfold update, send_stat, ret. destruct (bu_sender bu); eauto.
  rewrite Hs. eauto.
Qed.

(** The loop invariant of [copy_file]: the destination holds the first
    [written] bytes of the source. *)
Lemma copy_loop_spec xfer sa ps pd updates src sperm dperm :
  ps <> pd ->
  (forall k n, exists r, xfer k n = inl r /\ (r <= n)%N) ->
  (forall k, sa k = true) ->
  forall fuel pos w r w',
  w_fs w ps = Some (NFile src sperm) ->
  w_fs w pd = Some (NFile (firstn pos src) dperm) ->
  pos <= length src ->
  copy_loop xfer sa fuel ps pd updates (N.of_nat (length src)) (N.of_nat pos) w = Some (r, w') ->
  r = inl (N.of_nat (length src)) /\
  w_fs w' ps = Some (NFile src sperm) /\
  w_fs w' pd = Some (NFile src dperm) /\
  exists ts, w_log w' = w_log w ++ map (EvTransfer pd) ts /\
             (N.of_nat pos + sumN ts)%N = N.of_nat (length src).
Proof.
  intros Hne Hx Hs fuel. induction fuel as [|fuel IH]; intros pos w r w' Hps Hpd Hle Hrun;
    simpl in Hrun.
  - destruct (N.of_nat pos <? N.of_nat (length src))%N eqn:Hlt.
    + discriminate.
    + apply N.ltb_ge in Hlt. assert (pos = length src) by lia. subst pos.
      unfold ret in Hrun. inversion Hrun; subst.
      rewrite firstn_all in Hpd. repeat split; auto.
      exists []. rewrite app_nil_r. simpl. split; [reflexivity | lia].
  - destruct (N.of_nat pos <? N.of_nat (length src))%N eqn:Hlt.
    + apply N.ltb_lt in Hlt.
      set (req := N.min (N.of_nat (length src) - N.of_nat pos) (bu_batch_size updates)) in Hrun.
      destruct (Hx (w_ncopy w) req) as [c [Hxc Hcle]].
      unfold bind at 1, copy_file_bytes in Hrun. rewrite Hps, Hpd, Hxc in Hrun.
      set (c' := N.to_nat c).
      assert (Hc : pos + c' <= length src) by (unfold c', req in *; lia).
      rewrite Nat2N.id in Hrun.
      rewrite write_at_append in Hrun by exact Hc.
      set (w1 := set_fs _ _ _) in Hrun.
      unfold bind at 1 in Hrun.
      destruct (update_ok sa updates (inl c) w1 Hs) as [w2 Hu].
      rewrite Hu in Hrun.
      destruct (update_fs _ _ _ _ _ _ Hu) as [Hf2 [Hl2 _]].
      replace (N.of_nat pos + c)%N with (N.of_nat (pos + c')) in Hrun by (unfold c'; lia).
      assert (Hw1ps : w_fs w2 ps = Some (NFile src sperm)).
      { rewrite Hf2. unfold w1, set_fs. simpl. rewrite fs_set_other by auto. exact Hps. }
      assert (Hw1pd : w_fs w2 pd = Some (NFile (firstn (pos + c') src) dperm)).
      { rewrite Hf2. unfold w1, set_fs. simpl. apply fs_set_same. }
      destruct (IH (pos + c') w2 r w' Hw1ps Hw1pd Hc Hrun) as [Hr [H1 [H2 [ts [Hlog Hsum]]]]].
      repeat split; auto.
      exists (c :: ts). split.
      * rewrite Hlog, Hl2. unfold w1, set_fs. simpl. rewrite <- app_assoc. reflexivity.
      * simpl. unfold c' in Hsum. lia.
    + apply N.ltb_ge in Hlt. assert (pos = length src) by lia. subst pos.
      unfold ret in Hrun. inversion Hrun; subst.
      rewrite firstn_all in Hpd. repeat split; auto.
      exists []. rewrite app_nil_r. simpl. split; [reflexivity | lia].
Qed.

(** What a successful [File::create] does: the destination [pd] is where
    [to] leads; a regular file there is truncated (its permission bits
    kept), a missing one made with mode 0o644, a special file left as it
    is. *)
Lemma file_create_spec fault to w pd w1 :
  file_create fault to w = Some (inl pd, w1) ->
  resolve (w_fs w) to = inl pd /\
  w_log w1 = w_log w ++ [EvCreate pd] /\ w_out w1 = w_out w /\
  (forall p, p <> pd -> w_fs w1 p = w_fs w p) /\
  (w_fs w1 pd = Some (NFile [] (match w_fs w pd with Some (NFile _ p0) => p0 | _ => 420%N end))
   \/ (w_fs w pd = Some NOther /\ w_fs w1 = w_fs w)).
Proof.
  unfold file_create; cbv beta.
  destruct (fault (OpCreate to)); [intro H; discriminate H|].
  destruct (resolve (w_fs w) to) as [q|k]; [|intro H; discriminate H].
  destruct (w_fs w q) as [[d perm| l | t |]|] eqn:Hq; intro H; try discriminate H.
  - inversion H; subst; clear H. simpl. rewrite Hq.
    do 3 (split; [reflexivity|]). split.
    + intros p Hp. now apply fs_set_other.
    + left. apply fs_set_same.
  - destruct (fault (OpBlock q)); inversion H; subst; clear H. simpl. rewrite Hq.
    do 3 (split; [reflexivity|]). split; [reflexivity|]. right; split; reflexivity.
  - destruct (parent_ok (w_fs w) q); [|discriminate H].
    inversion H; subst; clear H. simpl. rewrite Hq.
    do 3 (split; [reflexivity|]). split.
    + intros p Hp. now apply fs_set_other.
    + left. apply fs_set_same.
Qed.

Lemma stat_resolved fs p q : resolve fs p = inl q -> stat fs p = fs q.
Proof.
  unfold stat, lookup. change (res_path 40 fs true [] p) with (resolve fs p).
  intros ->. destruct (fs q); reflexivity.
Qed.

(** On a destination that is not a special file, [File::create] leaves an
    empty regular file, with the permission bits of the file that was there
    or 0o644. *)
Lemma file_create_regular fault to w pd w1 :
  file_create fault to w = Some (inl pd, w1) ->
  stat (w_fs w) to <> Some NOther ->
  w_fs w1 pd = Some (NFile [] (match stat (w_fs w) to with
                               | Some (NFile _ p0) => p0 | _ => 420%N end)).
Proof.
  intros H Hn. destruct (file_create_spec _ _ _ _ _ H) as [Hr [_ [_ [_ [Hpd|[Ho _]]]]]].
  - rewrite (stat_resolved _ _ _ Hr). exact Hpd.
  - rewrite (stat_resolved _ _ _ Hr) in Hn. contradiction.
Qed.

Lemma set_permissions_spec fault fd perm w d dperm :
  fault (OpSetPerm fd) = false ->
  w_fs w fd = Some (NFile d dperm) ->
  set_permissions fault fd perm w
  = Some (inl tt, set_fs w (fs_set (w_fs w) fd (NFile d perm)) (EvSetPerm fd perm)).
Proof. intros Hf Hd. unfold set_permissions. now rewrite Hf, Hd. Qed.

Lemma file_open_world fault from w r w1 :
  file_open fault from w = Some (r, w1) -> w1 = w.
Proof.
  unfold file_open. intro H.
  destruct (fault (OpOpen from)); [inversion H; reflexivity|].
  destruct (resolve (w_fs w) from) as [q|k]; [|inversion H; reflexivity].
  destruct (w_fs w q) as [[]|]; try (inversion H; reflexivity).
  destruct (fault (OpBlock q)); inversion H; reflexivity.
Qed.

Lemma fd_metadata_world fault fd w r w1 :
  fd_metadata fault fd w = Some (r, w1) -> w1 = w.
Proof.
  unfold fd_metadata. intro H.
  destruct (fault (OpMeta fd)); [inversion H; reflexivity|].
  destruct (w_fs w fd); inversion H; reflexivity.
Qed.

Lemma file_create_effect fault to w pd w1 :
  file_create fault to w = Some (inl pd, w1) ->
  w_log w1 = w_log w ++ [EvCreate pd] /\ w_out w1 = w_out w.
Proof.
  intro H. destruct (file_create_spec fault to w pd w1 H) as [_ [Hl [Ho _]]]. auto.
Qed.

Lemma set_permissions_effect fault fd perm w w1 :
  set_permissions fault fd perm w = Some (inl tt, w1) ->
  w_log w1 = w_log w ++ [EvSetPerm fd perm] /\ w_out w1 = w_out w.
Proof.
  unfold set_permissions. intro H.
  destruct (fault (OpSetPerm fd)); [discriminate H|].
  destruct (w_fs w fd) as [[d p| | |]|]; try discriminate H;
    inversion H; split; reflexivity.
Qed.

Lemma copy_file_bytes_ok xfer infd outfd pos n w c w1 :
  copy_file_bytes xfer infd outfd pos n w = Some (inl c, w1) ->
  w_log w1 = w_log w ++ [EvTransfer outfd c] /\ w_out w1 = w_out w.
Proof.
  unfold copy_file_bytes. intro H.
  destruct (w_fs w infd) as [[src sp| | |]|]; try discriminate H.
  destruct (w_fs w outfd) as [[dst dp| | |]|]; try discriminate H.
  destruct (xfer (w_ncopy w) n); inversion H; split; reflexivity.
Qed.

Lemma copy_loop_log xfer sa infd outfd updates :
  forall fuel len written w r w',
  copy_loop xfer sa fuel infd outfd updates len written w = Some (inl r, w') ->
  exists ts,
    w_log w' = w_log w ++ map (EvTransfer outfd) ts /\
    r = (written + sumN ts)%N.
Proof.
  intro fuel. induction fuel as [|fuel IH]; intros len written w r w' H; simpl in H;
    destruct (written <? len)%N; unfold ret, diverge in H.
  - discriminate H.
  - inversion H; subst. exists []. simpl. rewrite !app_nil_r.
    split; [reflexivity|]. lia.
  - unfold bind in H.
    destruct (copy_file_bytes xfer infd outfd written
                (N.min (len - written) (bu_batch_size updates)) w)
      as [[[c|e] w1]|] eqn:Ec; try discriminate H.
    destruct (copy_file_bytes_ok _ _ _ _ _ _ _ _ Ec) as [Hl1 _].
    destruct (update sa updates (inl c) w1) as [[[[]|e] w2]|] eqn:Eu; try discriminate H.
    destruct (update_fs _ _ _ _ _ _ Eu) as [_ [Hl2 _]].
    destruct (IH _ _ _ _ _ H) as [ts [Hl Hr]].
    exists (c :: ts). simpl. rewrite Hl, Hl2, Hl1, <- !app_assoc.
    split; [reflexivity|]. lia.
  - inversion H; subst. exists []. simpl. rewrite !app_nil_r.
    split; [reflexivity|]. lia.
Qed.

Lemma copy_loop_log_any xfer sa infd outfd updates :
  forall fuel len written w r w',
  copy_loop xfer sa fuel infd outfd updates len written w = Some (r, w') ->
  exists ts, w_log w' = w_log w ++ map (EvTransfer outfd) ts.
Proof.
  intro fuel. induction fuel as [|fuel IH]; intros len written w r w' H; simpl in H;
    destruct (written <? len)%N; unfold ret, diverge in H; try discriminate H;
    try (inversion H; subst; exists []; rewrite app_nil_r; reflexivity).
  unfold bind in H.
  destruct (copy_file_bytes xfer infd outfd written
              (N.min (len - written) (bu_batch_size updates)) w)
    as [[[c|e] w1]|] eqn:Ec; try discriminate H.
  - destruct (copy_file_bytes_ok _ _ _ _ _ _ _ _ Ec) as [Hl1 _].
    destruct (update sa updates (inl c) w1) as [[[[]|e] w2]|] eqn:Eu; try discriminate H;
      destruct (update_fs _ _ _ _ _ _ Eu) as [_ [Hl2 _]].
    + destruct (IH _ _ _ _ _ H) as [ts Hl].
      exists (c :: ts). simpl. rewrite Hl, Hl2, Hl1, <- !app_assoc. reflexivity.
    + inversion H; subst. exists [c]. rewrite Hl2, Hl1. reflexivity.
  - inversion H; subst. exists [].
    unfold copy_file_bytes in Ec.
    destruct (w_fs w infd) as [[| | |]|], (w_fs w outfd) as [[| | |]|];
      try destruct (xfer _ _); inversion Ec; subst; simpl; rewrite app_nil_r; reflexivity.
Qed.

(** ** C1: [copy_file] *)

(** C1 (counterexample): opening, the metadata query, every transfer
    call and the permission update all succeed in this setting, yet
    [copy_file] does not return the byte count: the progress update after
    the first chunk fails and [?] propagates the send error, leaving two of
    the three bytes copied and the permission bits unset. *)
Lemma copy_file_sink_failure :
  (forall c, no_fault c = false) /\
  (forall k n, xfer_all k n = inl n) /\
  exists w',
    copy_file no_fault xfer_all receiver_dropped 10 ex_a ex_b exec_updater ex_w
    = Some (inr SendError, w') /\
    w_fs w' ex_b = Some (NFile [Byte.x41; Byte.x42] 420) /\
    w_log w' = [EvCreate ex_b; EvTransfer ex_b 2].
Proof.
  split; [reflexivity|]. split; [reflexivity|].
  eexists. split; [vm_compute; reflexivity|]. split; vm_compute; reflexivity.
Qed.

(** C1 (amended): suppose opening, creating and the metadata query
    succeed, the source is a regular file and the destination is not a
    special file, and every transfer call succeeds, moving at most the
    bytes requested.  (a) If moreover every progress update and the
    permission update succeed, [copy_file], if it returns, has moved
    exactly the length its metadata query reported, leaves the destination
    with the source's bytes and permission bits, sets the permission bits
    once, after the last transfer, and returns that length.  (b) If instead
    the progress updates go to the stats channel and its receiver is gone,
    a non-empty copy returns the send error right after the first transfer.
    (c) Whenever [copy_file] returns a send error, it has performed nothing
    after creating the destination but transfers: the permission bits are
    not set. *)
Theorem copy_file_correct fault xfer sa fuel from to updates w ps pd w1 src perm :
  file_open fault from w = Some (inl ps, w) ->
  file_create fault to w = Some (inl pd, w1) ->
  fault (OpMeta ps) = false ->
  w_fs w1 ps = Some (NFile src perm) ->
  stat (w_fs w) to <> Some NOther ->
  (forall k n, exists c, xfer k n = inl c /\ (c <= n)%N) ->
  (fault (OpSetPerm pd) = false ->
   (forall k, sa k = true) ->
   forall r w',
   copy_file fault xfer sa fuel from to updates w = Some (r, w') ->
   r = inl (N.of_nat (length src)) /\
   w_fs w' pd = Some (NFile src perm) /\
   w_fs w' ps = Some (NFile src perm) /\
   exists ts, w_log w' = w_log w1 ++ map (EvTransfer pd) ts ++ [EvSetPerm pd perm] /\
              sumN ts = N.of_nat (length src)) /\
  (src <> [] ->
   bu_sender updates = ChannelSink ->
   (forall k, sa k = false) ->
   exists c w',
     copy_file fault xfer sa (S fuel) from to updates w = Some (inr SendError, w') /\
     w_log w' = w_log w1 ++ [EvTransfer pd c]) /\
  (forall w',
   copy_file fault xfer sa fuel from to updates w = Some (inr SendError, w') ->
   exists ts, w_log w' = w_log w1 ++ map (EvTransfer pd) ts).
Proof.
  intros Hopen Hcreate Hmeta Hsrc Hreg Hx.
  pose proof (file_create_regular _ _ _ _ _ Hcreate Hreg) as Hpd.
  set (dperm := match stat (w_fs w) to with Some (NFile _ p0) => p0 | _ => 420%N end) in Hpd.
  split; [|split].
  - intros Hperm Hs r w' Hrun.
    { unfold copy_file, bind at 1 in Hrun. rewrite Hopen in Hrun.
      unfold bind at 1 in Hrun. rewrite Hcreate in Hrun.
      unfold bind at 1, fd_metadata at 1 in Hrun. rewrite Hmeta, Hsrc in Hrun.
      simpl m_perm in Hrun; simpl m_len in Hrun.
      unfold bind at 1 in Hrun.
      destruct (copy_loop xfer sa fuel ps pd updates (N.of_nat (length src)) 0 w1)
        as [[[written|e] w2]|] eqn:Hl; try discriminate.
      - assert (Hloop : written = N.of_nat (length src) /\
                        w_fs w2 ps = Some (NFile src perm) /\
                        w_fs w2 pd = Some (NFile src dperm) /\
                        exists ts, w_log w2 = w_log w1 ++ map (EvTransfer pd) ts /\
                                   sumN ts = N.of_nat (length src)).
        { destruct (path_eq_dec ps pd) as [Heq|Hne].
          - subst pd. rewrite Hpd in Hsrc. inversion Hsrc; subst src perm.
            assert (Hl' : Some (inl 0%N, w1) = Some (inl written, w2))
              by (rewrite <- Hl; destruct fuel; reflexivity).
            inversion Hl'; subst.
            refine (conj eq_refl (conj Hpd (conj Hpd _))).
            exists nil. split; [now rewrite app_nil_r | reflexivity].
          - change 0%N with (N.of_nat 0) in Hl.
            destruct (copy_loop_spec xfer sa ps pd updates src perm dperm Hne Hx Hs
                        fuel 0 w1 _ w2 Hsrc Hpd (le_0_n (length src)) Hl)
              as [Hr [H1 [H2 [ts [Hts Hsum]]]]].
            inversion Hr; subst. refine (conj eq_refl (conj H1 (conj H2 _))).
            exists ts. split; auto. }
        destruct Hloop as [-> [H1 [H2 [ts [Hts Hsum]]]]].
        unfold bind at 1 in Hrun. rewrite (set_permissions_spec _ _ _ _ _ _ Hperm H2) in Hrun.
        unfold ret in Hrun. inversion Hrun; subst; clear Hrun. simpl.
        split; [reflexivity|]. split; [apply fs_set_same|]. split.
        + destruct (path_eq_dec ps pd) as [Heq|Hne].
          * subst pd. rewrite fs_set_same. rewrite H1 in H2. congruence.
          * rewrite fs_set_other by exact Hne. exact H1.
        + exists ts. split; [rewrite Hts, <- app_assoc; reflexivity | exact Hsum].
      - (* the loop cannot fail: every transfer and every update succeeds *)
        exfalso. revert Hl.
        assert (Hinv : forall pos, pos <= length src -> forall w2 e w3,
                  w_fs w2 ps = Some (NFile src perm) ->
                  (ps <> pd -> w_fs w2 pd = Some (NFile (firstn pos src) dperm)) ->
                  copy_loop xfer sa fuel ps pd updates (N.of_nat (length src)) (N.of_nat pos) w2
                  <> Some (inr e, w3)).
        { clear -Hx Hs Hpd Hsrc. induction fuel as [|f IH]; intros pos Hle w2 e w3 Hps Hpd2 Hl;
            simpl in Hl.
          - destruct (_ <? _)%N; discriminate.
          - destruct (N.of_nat pos <? N.of_nat (length src))%N eqn:Hlt; [|discriminate].
            apply N.ltb_lt in Hlt.
            assert (Hne : ps <> pd).
            { intro Heq; subst pd. rewrite Hpd in Hsrc. inversion Hsrc; subst src.
              simpl in Hlt. lia. }
            specialize (Hpd2 Hne).
            set (req := N.min _ _) in Hl.
            destruct (Hx (w_ncopy w2) req) as [c [Hxc Hcle]].
            unfold bind at 1, copy_file_bytes in Hl. rewrite Hps, Hpd2, Hxc in Hl.
            rewrite Nat2N.id in Hl.
            assert (Hc : pos + N.to_nat c <= length src) by (unfold req in *; lia).
            rewrite write_at_append in Hl by exact Hc.
            set (w4 := set_fs _ _ _) in Hl.
            unfold bind at 1 in Hl.
            destruct (update_ok sa updates (inl c) w4 Hs) as [w5 Hu]. rewrite Hu in Hl.
            destruct (update_fs _ _ _ _ _ _ Hu) as [Hf5 _].
            replace (N.of_nat pos + c)%N with (N.of_nat (pos + N.to_nat c)) in Hl by lia.
            refine (IH (pos + N.to_nat c) Hc w5 e w3 _ _ Hl).
            + rewrite Hf5. unfold w4, set_fs; simpl. rewrite fs_set_other by auto. exact Hps.
            + intros _. rewrite Hf5. unfold w4, set_fs; simpl. apply fs_set_same. }
        change 0%N with (N.of_nat 0).
        apply (Hinv 0 (le_0_n (length src)) w1 e w2 Hsrc).
        intros _. exact Hpd. }
  - intros Hne Hsink Hdead.
    assert (Hps : ps <> pd).
    { intro E; subst pd. rewrite Hpd in Hsrc. congruence. }
    assert (Hlen : (0 < N.of_nat (length src))%N).
    { destruct src; [contradiction|simpl; lia]. }
    set (req := N.min (N.of_nat (length src) - 0) (bu_batch_size updates)).
    destruct (Hx (w_ncopy w1) req) as [c [Hxc _]].
    exists c.
    unfold copy_file, bind at 1. rewrite Hopen.
    unfold bind at 1. rewrite Hcreate.
    unfold bind at 1, fd_metadata at 1. rewrite Hmeta, Hsrc.
    simpl m_perm; simpl m_len.
    unfold bind at 1. simpl copy_loop.
    replace (0 <? N.of_nat (length src))%N with true by (symmetry; apply N.ltb_lt; exact Hlen).
    unfold bind at 1, copy_file_bytes. rewrite Hsrc, Hpd. fold req. rewrite Hxc.
    unfold bind at 1, update. rewrite Hsink. unfold send_stat. simpl. rewrite Hdead.
    eexists. split; reflexivity.
  - intros w' Hrun.
    unfold copy_file, bind at 1 in Hrun. rewrite Hopen in Hrun.
    unfold bind at 1 in Hrun. rewrite Hcreate in Hrun.
    unfold bind at 1, fd_metadata at 1 in Hrun. rewrite Hmeta, Hsrc in Hrun.
    simpl m_perm in Hrun; simpl m_len in Hrun.
    unfold bind at 1 in Hrun.
    destruct (copy_loop xfer sa fuel ps pd updates (N.of_nat (length src)) 0 w1)
      as [[[written|e] w2]|] eqn:Hl; try discriminate Hrun.
    + unfold bind, set_permissions, ret in Hrun.
      destruct (fault (OpSetPerm pd)); [discriminate Hrun|].
      destruct (w_fs w2 pd) as [[| | |]|]; discriminate Hrun.
    + inversion Hrun; subst. exact (copy_loop_log_any _ _ _ _ _ _ _ _ _ _ _ Hl).
Qed.

Lemma copy_file_correct_witness :
  match copy_file no_fault xfer_all alive 10 ex_a ex_b exec_updater ex_w with
  | Some (r, w') =>
      r = inl (N.of_nat (length [Byte.x41; Byte.x42; Byte.x43])) /\
      w_fs w' ex_b = Some (NFile [Byte.x41; Byte.x42; Byte.x43] 384) /\
      w_fs w' ex_a = Some (NFile [Byte.x41; Byte.x42; Byte.x43] 384) /\
      exists ts, w_log w' = w_log ex_w1 ++ map (EvTransfer ex_b) ts ++ [EvSetPerm ex_b 384] /\
                 sumN ts = N.of_nat (length [Byte.x41; Byte.x42; Byte.x43])
  | None => False
  end.
Proof.
  destruct (copy_file no_fault xfer_all alive 10 ex_a ex_b exec_updater ex_w)
    as [[r w']|] eqn:E.
  - refine (proj1 (copy_file_correct no_fault xfer_all alive 10 ex_a ex_b exec_updater ex_w
             ex_a ex_b ex_w1 [Byte.x41; Byte.x42; Byte.x43] 384 _ _ _ _ _ _)
             _ _ r w' E); try reflexivity.
    + vm_compute. discriminate.
    + intros k n. exists n. split; [reflexivity | apply N.le_refl].
  - vm_compute in E. discriminate E.
Defined.

Lemma copy_file_bytes_cases xfer infd outfd pos n w :
  (exists c w1, copy_file_bytes xfer infd outfd pos n w = Some (inl c, w1) /\
                xfer (w_ncopy w) n = inl c /\
                w_fs w1 = (match w_fs w infd, w_fs w outfd with
                           | Some (NFile src _), Some (NFile dst perm) =>
                               fs_set (w_fs w) outfd
                                 (NFile (write_at dst pos
                                   (firstn (N.to_nat c) (skipn (N.to_nat pos) src))) perm)
                           | _, _ => w_fs w
                           end)) \/
  (exists e w1, copy_file_bytes xfer infd outfd pos n w = Some (inr e, w1)).
Proof.
  unfold copy_file_bytes.
  destruct (w_fs w infd) as [[src sp| | |]|]; eauto.
  destruct (w_fs w outfd) as [[dst dp| | |]|]; eauto.
  destruct (xfer (w_ncopy w) n) as [c|e]; eauto.
  left. exists c. eexists. split; [reflexivity|]. split; reflexivity.
Qed.

Lemma update_cases sa bu r w :
  exists r' w', update sa bu r w = Some (r', w').
Proof.
  unfold update, send_stat, ret. destruct (bu_sender bu); eauto.
  destruct (sa (w_nstat w)); eauto.
Qed.

(** Writing nothing changes nothing. *)
Lemma write_at_nil dst pos : write_at dst pos [] = dst.
Proof. unfold write_at. simpl. rewrite Nat.add_0_r. apply firstn_skipn. Qed.

(** ** C10: termination of the chunked-copy loop *)

(** C10: if every call of the copy primitive that succeeds moves at least
    one byte, the loop of [copy_file] finishes within [len - written + 1]
    iterations, whatever the primitive and the sink answer otherwise; if
    instead the primitive keeps answering zero bytes (and the sink keeps
    accepting), the loop never finishes while bytes remain: no amount of
    fuel suffices. *)
Theorem copy_loop_termination xfer sa ps pd updates len :
  ((forall k n c, xfer k n = inl c -> (1 <= c)%N) ->
   forall fuel written w,
   (len - written < N.of_nat fuel)%N ->
   copy_loop xfer sa fuel ps pd updates len written w <> None) /\
  ((forall k n, xfer k n = inl 0%N) ->
   (forall k, sa k = true) ->
   forall fuel written w d1 p1 d2 p2,
   w_fs w ps = Some (NFile d1 p1) ->
   w_fs w pd = Some (NFile d2 p2) ->
   (written < len)%N ->
   copy_loop xfer sa fuel ps pd updates len written w = None).
Proof.
  split.
  - intros Hprog fuel. induction fuel as [|f IH]; intros written w Hf; simpl.
    + lia.
    + destruct (written <? len)%N eqn:Hlt; [|unfold ret; discriminate].
      apply N.ltb_lt in Hlt.
      unfold bind at 1.
      destruct (copy_file_bytes_cases xfer ps pd written
                  (N.min (len - written) (bu_batch_size updates)) w)
        as [[c [w1 [E [Hx _]]]] | [e [w1 E]]]; rewrite E; [|discriminate].
      pose proof (Hprog _ _ _ Hx) as Hc.
      unfold bind at 1.
      destruct (update_cases sa updates (inl c) w1) as [[[]|e] [w2 Hu]]; rewrite Hu;
        [|discriminate].
      apply IH. lia.
  - intros Hzero Hs fuel. induction fuel as [|f IH]; intros written w d1 p1 d2 p2 H1 H2 Hlt;
      simpl.
    + apply N.ltb_lt in Hlt. rewrite Hlt. reflexivity.
    + apply N.ltb_lt in Hlt as Hlt'. rewrite Hlt'.
      unfold bind at 1.
      destruct (copy_file_bytes_cases xfer ps pd written
                  (N.min (len - written) (bu_batch_size updates)) w)
        as [[c [w1 [E [Hx Hfs]]]] | [e [w1 E]]]; rewrite E.
      * rewrite Hzero in Hx. inversion Hx; subst c.
        rewrite H1, H2 in Hfs. simpl in Hfs. rewrite write_at_nil in Hfs.
        unfold bind at 1.
        destruct (update_ok sa updates (inl 0%N) w1 Hs) as [w2 Hu]. rewrite Hu.
        destruct (update_fs _ _ _ _ _ _ Hu) as [Hf2 _].
        rewrite N.add_0_r.
        assert (Hw2 : w_fs w2 = fs_set (w_fs w) pd (NFile d2 p2)) by congruence.
        apply (IH written w2 (if path_eqb ps pd then d2 else d1) (if path_eqb ps pd then p2 else p1) d2 p2);
          [| rewrite Hw2; apply fs_set_same | exact Hlt].
        rewrite Hw2. unfold fs_set. destruct (path_eqb ps pd); [reflexivity | exact H1].
      * exfalso. revert E. unfold copy_file_bytes. rewrite H1, H2, Hzero. discriminate.
Qed.

Lemma copy_loop_termination_witness :
  copy_loop xfer_one alive 4 ex_a ex_b exec_updater 3 0 ex_w1 <> None /\
  copy_loop xfer_zero alive 7 ex_a ex_b exec_updater 3 0 ex_w1 = None.
Proof.
  split.
  - apply (proj1 (copy_loop_termination xfer_one alive ex_a ex_b exec_updater 3)).
    + intros k n c H. inversion H. apply N.le_refl.
    + vm_compute. reflexivity.
  - apply (proj2 (copy_loop_termination xfer_zero alive ex_a ex_b exec_updater 3))
      with (d1 := [Byte.x41; Byte.x42; Byte.x43]) (p1 := 384%N) (d2 := []) (p2 := 420%N);
      try reflexivity.
Defined.

(** ** Invariants of the delivered messages *)

Section Preserve.
Variable I : World -> Prop.

Lemma pres_ret {A} (a : A) : preserves I (ret a).
Proof. intros w r w' H E. unfold ret in E. inversion E; subst; exact H. Qed.

Lemma pres_throw {A} e : preserves I (@throw World A e).
Proof. intros w r w' H E. unfold throw in E. inversion E; subst; exact H. Qed.

Lemma pres_bind {A B} (m : M World A) (k : A -> M World B) :
  preserves I m -> (forall a, preserves I (k a)) -> preserves I (bind m k).
Proof.
  intros Hm Hk w r w' H E. unfold bind in E.
  destruct (m w) as [[[a|e] w1]|] eqn:Em; try discriminate.
  - exact (Hk a w1 r w' (Hm w _ w1 H Em) E).
  - inversion E; subst. exact (Hm w _ w' H Em).
Qed.

Lemma pres_bind_ret {A B} (a : A) (k : A -> M World B) :
  preserves I (k a) -> preserves I (bind (ret a) k).
Proof. intros Hk w r w' H E. exact (Hk w r w' H E). Qed.

Lemma pres_bind_throw {A B} e (k : A -> M World B) :
  preserves I (bind (throw e) k).
Proof. intros w r w' H E. unfold bind, throw in E. inversion E; subst; exact H. Qed.

End Preserve.

Definition outs_ok (good : Msg -> Prop) (w : World) : Prop := Forall good (w_out w).

Lemma pres_send_work good wa op :
  good (MWork op) -> preserves (outs_ok good) (send_work wa op).
Proof.
  intros Hg w r w' H E. unfold send_work in E. unfold outs_ok in *.
  destruct (wa (w_nwork w)); inversion E; subst; simpl; auto.
  apply Forall_app; auto.
Qed.

Lemma pres_update good sa bu r :
  (forall u, good (MStat (inl u))) ->
  (forall e, r = inr e -> good (MStat (inr e))) ->
  preserves (outs_ok good) (update sa bu r).
Proof.
  intros Hu He w r' w' H E. unfold update, send_stat, ret in E. unfold outs_ok in *.
  destruct (bu_sender bu); try (inversion E; subst; exact H).
  destruct (sa (w_nstat w)); inversion E; subst; simpl; auto.
  apply Forall_app; split; auto. constructor; auto.
  destruct r as [n|e]; auto.
Qed.

(** ** C2: destination paths chosen by the walker *)

Definition good_target (all : list (path + XcpError)) (source base : path) (m : Msg) : Prop :=
  forall t, msg_dest m = Some t ->
  exists from rel, In (inl from) all /\ strip_prefix from source = Some rel /\
                   t = entry_target base rel.

Ltac pres_step :=
  first
  [ apply pres_bind_ret
  | apply pres_bind_throw
  | apply pres_ret
  | apply pres_throw
  | apply pres_send_work
  | apply pres_update
  | apply pres_bind; [| intros ?]
  | match goal with
    | |- preserves _ (bind (match ?x with _ => _ end) _) => destruct x
    | |- preserves _ (match ?x with _ => _ end) => destruct x
    | |- preserves _ (if ?x then _ else _) => destruct x
    end ].

Lemma walk_entry_targets sa wa view all t source base opts updates e :
  In e all ->
  preserves (outs_ok (good_target all source base))
            (walk_entry sa wa view t source base opts updates e).
Proof.
  intro Hin. unfold walk_entry.
  destruct e as [from|err]; cbn [lift]; [|apply pres_bind_throw].
  apply pres_bind_ret || idtac.
  unfold symlink_metadata, read_link, walk_metadata.
  destruct (strip_prefix from source) as [rel|] eqn:Hs.
  - repeat pres_step; unfold good_target;
      try (intros ? ? H; discriminate H);
      try (intros ? H; discriminate H);
      try (intros ? He; inversion He; subst; intros ? H; simpl in H;
           inversion H; subst; exists from, rel; auto);
      try (intros ? H; simpl in H; inversion H; subst; exists from, rel; auto).
  - repeat pres_step.
Qed.

Lemma walk_entries_targets sa wa view all source base opts updates :
  forall es t, incl es all ->
  preserves (outs_ok (good_target all source base))
            (walk_entries sa wa view t source base opts updates es).
Proof.
  induction es as [|e es IH]; intros t Hincl; simpl.
  - apply pres_ret.
  - apply pres_bind; [apply walk_entry_targets; apply Hincl; now left|].
    intros _. apply IH. intros x Hx. apply Hincl. now right.
Qed.

Lemma strip_prefix_self p : strip_prefix p p = Some [].
Proof.
  induction p as [|c p IH]; simpl; auto.
  destruct (component_eq_dec c c); [exact IH | congruence].
Qed.

(** The messages [w] holds beyond [out0] are all [good]. *)
Definition outs_after (out0 : list Msg) (good : Msg -> Prop) (w : World) : Prop :=
  exists seg, w_out w = out0 ++ seg /\ Forall good seg.

Lemma outs_after_nil good w : outs_after (w_out w) good w.
Proof. exists []. rewrite app_nil_r. split; [reflexivity | constructor]. Qed.

Lemma pres_send_work_after out0 good wa op :
  good (MWork op) -> preserves (outs_after out0 good) (send_work wa op).
Proof.
  intros Hg w r w' [seg [Hs Hf]] E. unfold send_work in E. unfold outs_after.
  destruct (wa (w_nwork w)); inversion E; subst; simpl.
  - exists (seg ++ [MWork op]). rewrite Hs, <- app_assoc. split; [reflexivity|].
    apply Forall_app; auto.
  - exists seg; auto.
Qed.

Lemma pres_update_after out0 good sa bu r :
  (forall u, good (MStat (inl u))) ->
  (forall e, r = inr e -> good (MStat (inr e))) ->
  preserves (outs_after out0 good) (update sa bu r).
Proof.
  intros Hu He w r' w' [seg [Hs Hf]] E. unfold update, send_stat, ret in E.
  unfold outs_after.
  destruct (bu_sender bu).
  - destruct (sa (w_nstat w)); inversion E; subst; simpl.
    + exists (seg ++ [MStat match r with
                        | inl n => inl (retag (bu_stat bu) n)
                        | inr e => inr e end]).
      rewrite Hs, <- app_assoc. split; [reflexivity|].
      apply Forall_app; split; auto. constructor; auto. destruct r; auto.
    + exists seg; auto.
  - inversion E; subst. exists seg; auto.
  - inversion E; subst. exists seg; auto.
Qed.

(** A message sent for the walk entry [e]: each destination it names is
    [entry_target base rel] for the path [rel] of [e] itself relative to the
    source root, and a [Copy] copies from [e] itself. *)
Definition entry_good (source base : path) (e : path + XcpError) (m : Msg) : Prop :=
  forall t, msg_dest m = Some t ->
  exists from rel, e = inl from /\ strip_prefix from source = Some rel /\
                   t = entry_target base rel /\
                   (forall f t', m = MWork (Copy f t') -> f = from).

Ltac pres_step_after :=
  first
  [ apply pres_bind_ret
  | apply pres_bind_throw
  | apply pres_ret
  | apply pres_throw
  | apply pres_send_work_after
  | apply pres_update_after
  | apply pres_bind; [| intros ?]
  | match goal with
    | |- preserves _ (bind (match ?x with _ => _ end) _) => destruct x
    | |- preserves _ (match ?x with _ => _ end) => destruct x
    | |- preserves _ (if ?x then _ else _) => destruct x
    end ].

Lemma walk_entry_seg sa wa view t source base opts updates e out0 :
  preserves (outs_after out0 (entry_good source base e))
            (walk_entry sa wa view t source base opts updates e).
Proof.
  unfold walk_entry.
  destruct e as [from|err]; cbn [lift]; [|apply pres_bind_throw].
  apply pres_bind_ret || idtac.
  unfold symlink_metadata, read_link, walk_metadata.
  destruct (strip_prefix from source) as [rel|] eqn:Hs.
  - repeat pres_step_after; unfold entry_good;
      try (intros ? ? H; discriminate H);
      try (intros ? H; discriminate H);
      try (intros ? He; inversion He; subst; intros ? H; simpl in H;
           inversion H; subst; exists from, rel; repeat split; auto;
           intros ? ? Hc; discriminate Hc);
      try (intros ? H; simpl in H; inversion H; subst; exists from, rel;
           repeat split; auto; intros ? ? Hc; inversion Hc; auto).
  - repeat pres_step_after.
Qed.

Lemma walk_entries_segs sa wa view source base opts updates :
  forall es t w r w',
  walk_entries sa wa view t source base opts updates es w = Some (r, w') ->
  exists segs,
    w_out w' = w_out w ++ concat segs /\
    Forall2 (fun e seg => Forall (entry_good source base e) seg)
            (firstn (length segs) es) segs.
Proof.
  induction es as [|e es IH]; intros t w r w' H; simpl in H.
  - unfold ret in H. inversion H; subst. exists []. simpl.
    rewrite app_nil_r. split; [reflexivity | constructor].
  - unfold bind at 1 in H.
    destruct (walk_entry sa wa view t source base opts updates e w)
      as [[[u|err] w1]|] eqn:E; try discriminate H.
    + destruct (walk_entry_seg sa wa view t source base opts updates e (w_out w) w (inl u) w1
                  (outs_after_nil _ w) E) as [seg [Hseg Hg]].
      destruct (IH _ _ _ _ H) as [segs [Hout Hf]].
      exists (seg :: segs). simpl. rewrite Hout, Hseg, <- app_assoc.
      split; [reflexivity | constructor; auto].
    + inversion H; subst.
      destruct (walk_entry_seg sa wa view t source base opts updates e (w_out w) w (inr err) w'
                  (outs_after_nil _ w) E) as [seg [Hseg Hg]].
      exists [seg]. simpl. rewrite app_nil_r. split; [exact Hseg|].
      constructor; [exact Hg | constructor].
Qed.

(** C2: the destination base is computed once, from the filesystem as it is
    before the walk: [dest/last-component(source)] when [dest] exists, else
    [dest]; the root entry, whose path relative to the source root is
    empty, maps to the base itself.  What the walker sends is, entry by
    entry of the walk, a group of messages followed by at most the final
    [End]; every destination a message of an entry's group names (in an
    operation or in an error) is the base joined with that entry's own path
    relative to the source root, and a [Copy] in it copies from that entry. *)
Theorem tree_walker_targets sa wa view source opts ib entries updates w r w' sd :
  last_component source = Some sd ->
  tree_walker sa wa view source opts ib entries updates w = Some (r, w') ->
  let base := if path_exists (view 0) (dest opts) then join (dest opts) [sd]
              else dest opts in
  strip_prefix source source = Some [] /\ entry_target base [] = base /\
  exists segs tail,
    w_out w' = w_out w ++ concat segs ++ tail /\
    (tail = [] \/ tail = [MWork End]) /\
    Forall2 (fun e seg => Forall (entry_good source base e) seg)
            (firstn (length segs) entries) segs.
Proof.
  intros Hsd Hrun base. split; [apply strip_prefix_self|]. split; [reflexivity|].
  unfold tree_walker, bind at 1 in Hrun. rewrite Hsd in Hrun. simpl ok_or in Hrun.
  unfold ret at 1 in Hrun. cbv beta in Hrun.
  fold (target_base_of (view 0) sd opts) in Hrun.
  change (target_base_of (view 0) sd opts) with base in Hrun.
  unfold bind at 1 in Hrun.
  destruct (gitignore opts && negb ib).
  - unfold throw in Hrun. inversion Hrun; subst.
    exists [], []. simpl. rewrite app_nil_r. split; [reflexivity|].
    split; [left; reflexivity | constructor].
  - unfold ret at 1 in Hrun. unfold bind at 1 in Hrun.
    destruct (walk_entries sa wa view 1 source base opts updates entries w)
      as [[[u|err] w1]|] eqn:E; try discriminate Hrun.
    + destruct (walk_entries_segs _ _ _ _ _ _ _ _ _ _ _ _ E) as [segs [Hout Hf]].
      unfold send_work in Hrun.
      exists segs. destruct (wa (w_nwork w1)); inversion Hrun; subst; simpl.
      * exists [MWork End]. rewrite Hout, <- app_assoc.
        split; [reflexivity|]. split; [right; reflexivity | exact Hf].
      * exists []. rewrite Hout, app_nil_r.
        split; [reflexivity|]. split; [left; reflexivity | exact Hf].
    + inversion Hrun; subst.
      destruct (walk_entries_segs _ _ _ _ _ _ _ _ _ _ _ _ E) as [segs [Hout Hf]].
      exists segs, []. rewrite app_nil_r.
      split; [exact Hout|]. split; [left; reflexivity | exact Hf].
Qed.

Lemma tree_walker_targets_witness :
  match tree_walker alive alive (fun _ => ex_tree) ex_src (opts_into ex_e false) true
          ex_entries_nofifo walk_updater ex_world with
  | Some (r, w') =>
      let base := if path_exists ex_tree ex_e then join ex_e [Normal "a"] else ex_e in
      strip_prefix ex_src ex_src = Some [] /\ entry_target base [] = base /\
      exists segs tail,
        w_out w' = w_out ex_world ++ concat segs ++ tail /\
        (tail = [] \/ tail = [MWork End]) /\
        Forall2 (fun e seg => Forall (entry_good ex_src base e) seg)
                (firstn (length segs) ex_entries_nofifo) segs
  | None => False
  end.
Proof.
  destruct (tree_walker alive alive (fun _ => ex_tree) ex_src (opts_into ex_e false) true
              ex_entries_nofifo walk_updater ex_world) as [[r w']|] eqn:E.
  - exact (tree_walker_targets alive alive (fun _ => ex_tree) ex_src (opts_into ex_e false)
             true ex_entries_nofifo walk_updater ex_world r w' (Normal "a") eq_refl E).
  - vm_compute in E. discriminate E.
Defined.

Lemma bind_assoc_at {A B C} (m : M World A) (k : A -> M World B) (h : B -> M World C) w :
  bind (bind m k) h w = bind m (fun a => bind (k a) h) w.
Proof. unfold bind. destruct (m w) as [[[a|e] w1]|]; reflexivity. Qed.

Lemma bind_ext_at {A B} (m : M World A) (k1 k2 : A -> M World B) w :
  (forall a s, k1 a s = k2 a s) -> bind m k1 w = bind m k2 w.
Proof. intro H. unfold bind. destruct (m w) as [[[a|e] w1]|]; auto. Qed.

Lemma walk_entries_app sa wa view source base opts updates pre :
  forall t es w,
  walk_entries sa wa view t source base opts updates (pre ++ es) w =
  bind (walk_entries sa wa view t source base opts updates pre)
       (fun _ => walk_entries sa wa view (t + length pre) source base opts updates es) w.
Proof.
  induction pre as [|e pre IH]; intros t es w; simpl.
  - unfold bind, ret. rewrite Nat.add_0_r. reflexivity.
  - rewrite bind_assoc_at. apply bind_ext_at. intros _ s.
    rewrite IH. replace (S t + length pre) with (t + S (length pre)) by lia.
    reflexivity.
Qed.

(** ** C3: the no-clobber abort in the walker *)

Lemma walk_entry_noclobber sa wa view t source base opts updates from n rel w r w' :
  noclobber opts = true ->
  lookup (view t) false from = inl n ->
  strip_prefix from source = Some rel ->
  path_exists (view t) (entry_target base rel) = true ->
  bu_sender updates = ChannelSink ->
  walk_entry sa wa view t source base opts updates (inl from) w = Some (r, w') ->
  (wa (w_nwork w) = true -> sa (w_nstat w) = true ->
   r = inr EarlyShutdown /\
   w_out w' = w_out w ++ [MWork End; MStat (inr (DestinationExists (entry_target base rel)))]) /\
  (wa (w_nwork w) = false -> r = inr SendError /\ w_out w' = w_out w) /\
  (wa (w_nwork w) = true -> sa (w_nstat w) = false ->
   r = inr SendError /\ w_out w' = w_out w ++ [MWork End]).
Proof.
  intros Hnc Hv Hs Hex Hsink E.
  unfold walk_entry, bind, lift, ret, throw, symlink_metadata, ok_or, send_work,
    update, send_stat in E.
  cbv beta iota zeta in E. rewrite Hv in E. cbv beta iota zeta delta [ret throw] in E.
  rewrite Hs in E. cbv beta iota zeta delta [ret throw] in E.
  rewrite Hex, Hnc in E. cbv beta iota delta [andb] in E.
  destruct (wa (w_nwork w)) eqn:Hwa; cbv beta iota in E.
  - rewrite Hsink in E. cbv beta iota in E. cbn [w_nstat] in E.
    destruct (sa (w_nstat w)) eqn:Hsa; inversion E; subst; cbn.
    + split; [intros _ _; split; [reflexivity | rewrite <- app_assoc; reflexivity]|].
      split; [intros H; discriminate H | intros _ H; discriminate H].
    + split; [intros _ H; discriminate H|].
      split; [intros H; discriminate H | intros _ _; split; reflexivity].
  - inversion E; subst; cbn.
    split; [intros H; discriminate H|].
    split; [intros _; split; reflexivity | intros H; discriminate H].
Qed.

(** C3 (counterexample): a run of [copy_tree] in which, with no-clobber set,
    the walker meets an entry whose destination exists and yet neither
    sends the destination-exists error nor returns [EarlyShutdown].  The
    source root [/s] is a link to [/r]; the walker sends [Link "/r" /e] for
    the root, then [End] for the fifo [/s/f] (the unknown-type arm).  The
    executor, given those two operations, makes [/e] a link to [/r] and
    stops at the [End], dropping its receiver.  When the walker reaches
    [/s/x], its destination [/e/x] exists (it is [/r/x] through the link),
    so it sends [End]: that send fails, and [?] returns the send failure. *)
Lemma tree_walker_noclobber_send_failure :
  (exists wx,
     copy_worker no_fault xfer_all alive 10 [Link "/r" ex_e; End] exec_updater c3_world
     = Some (inl tt, wx) /\ w_fs wx = c3_view 3) /\
  path_exists (c3_view 3) (ex_e ++ [Normal "x"]) = true /\
  exists w',
    tree_walker alive c3_work_alive c3_view c3_src (opts_into ex_e true) true
      c3_entries walk_updater c3_world = Some (inr SendError, w') /\
    work_of (w_out w') = [Link "/r" ex_e; End] /\
    stats_of (w_out w') = [inr (UnknownFiletype (ex_e ++ [Normal "f"]))].
Proof.
  split; [eexists; split; vm_compute; reflexivity|].
  split; [vm_compute; reflexivity|].
  eexists. split; [vm_compute; reflexivity | split; vm_compute; reflexivity].
Qed.

(** C3 (amended): with no-clobber set, when the walk reaches an entry whose
    computed destination already exists, the walker sends [End] on the work
    channel, then the destination-exists error carrying that path on the
    stats channel, dispatches nothing for the entry, visits no further
    entry, does not send its closing [End], and returns [EarlyShutdown], an
    error distinct from every I/O failure; this when both sends succeed.
    When the [End] send fails (the executor has stopped), it returns the
    send error and sends nothing more; when [End] is sent but the error
    send fails (the aggregator has stopped), it returns the send error
    after that [End]. *)
Theorem tree_walker_noclobber sa wa view source opts ib pre from post updates w sd
        w_mid n rel r w' :
  last_component source = Some sd ->
  (gitignore opts = true -> ib = true) ->
  walk_entries sa wa view 1 source (target_base_of (view 0) sd opts) opts updates pre w
    = Some (inl tt, w_mid) ->
  noclobber opts = true ->
  lookup (view (S (length pre))) false from = inl n ->
  strip_prefix from source = Some rel ->
  path_exists (view (S (length pre))) (entry_target (target_base_of (view 0) sd opts) rel)
    = true ->
  bu_sender updates = ChannelSink ->
  tree_walker sa wa view source opts ib (pre ++ inl from :: post) updates w = Some (r, w') ->
  (wa (w_nwork w_mid) = true -> sa (w_nstat w_mid) = true ->
   r = inr EarlyShutdown /\
   (forall k, r <> inr (IoError k)) /\
   w_out w' = w_out w_mid ++
     [MWork End;
      MStat (inr (DestinationExists (entry_target (target_base_of (view 0) sd opts) rel)))]) /\
  (wa (w_nwork w_mid) = false -> r = inr SendError /\ w_out w' = w_out w_mid) /\
  (wa (w_nwork w_mid) = true -> sa (w_nstat w_mid) = false ->
   r = inr SendError /\ w_out w' = w_out w_mid ++ [MWork End]).
Proof.
  intros Hsd Hib Hpre Hnc Hv Hs Hex Hsink E.
  unfold tree_walker, bind at 1 in E. rewrite Hsd in E. cbn [ok_or] in E. unfold ret in E.
  set (base := target_base_of (view 0) sd opts) in *.
  unfold bind at 1 in E.
  replace (gitignore opts && negb ib) with false in E
    by (destruct (gitignore opts); [rewrite (Hib eq_refl) | ]; reflexivity).
  unfold bind at 1 in E. cbv beta iota in E. rewrite walk_entries_app in E.
  unfold bind at 1 in E. rewrite Hpre in E.
  replace (1 + length pre) with (S (length pre)) in E by lia.
  cbn [walk_entries] in E. unfold bind at 1 in E.
  destruct (walk_entry sa wa view (S (length pre)) source base opts updates (inl from) w_mid)
    as [[[u|err] w2]|] eqn:Ee; try discriminate.
  - exfalso.
    destruct (walk_entry_noclobber _ _ _ _ _ _ _ _ _ _ _ _ _ _ Hnc Hv Hs Hex Hsink Ee)
      as [H1 [H2 H3]].
    destruct (wa (w_nwork w_mid)), (sa (w_nstat w_mid));
      first [ destruct (H1 eq_refl eq_refl) as [Hr _]
            | destruct (H2 eq_refl) as [Hr _]
            | destruct (H3 eq_refl eq_refl) as [Hr _] ]; discriminate Hr.
  - inversion E; subst.
    destruct (walk_entry_noclobber _ _ _ _ _ _ _ _ _ _ _ _ _ _ Hnc Hv Hs Hex Hsink Ee)
      as [H1 [H2 H3]].
    split; [|split].
    + intros Hwa Hsa. destruct (H1 Hwa Hsa) as [Hr Hout].
      split; [exact Hr|]. split; [intros k Hk; rewrite Hr in Hk; discriminate Hk | exact Hout].
    + exact H2.
    + exact H3.
Qed.

Lemma tree_walker_noclobber_witness :
  match tree_walker alive alive (fun _ => ex_tree) ex_src (opts_into ex_d true) true
          ([] ++ inl ex_src :: [inl ex_f; inl ex_g; inl ex_l]) walk_updater ex_world with
  | Some (r, w') =>
      (alive (w_nwork ex_world) = true -> alive (w_nstat ex_world) = true ->
       r = inr EarlyShutdown /\ (forall k, r <> inr (IoError k)) /\
       w_out w' = w_out ex_world ++
         [MWork End;
          MStat (inr (DestinationExists
            (entry_target (target_base_of ex_tree (Normal "a") (opts_into ex_d true)) [])))]) /\
      (alive (w_nwork ex_world) = false -> r = inr SendError /\ w_out w' = w_out ex_world) /\
      (alive (w_nwork ex_world) = true -> alive (w_nstat ex_world) = false ->
       r = inr SendError /\ w_out w' = w_out ex_world ++ [MWork End])
  | None => False
  end.
Proof.
  destruct (tree_walker alive alive (fun _ => ex_tree) ex_src (opts_into ex_d true) true
              ([] ++ inl ex_src :: [inl ex_f; inl ex_g; inl ex_l]) walk_updater ex_world)
    as [[r w']|] eqn:E.
  - apply (tree_walker_noclobber alive alive (fun _ => ex_tree) ex_src (opts_into ex_d true)
             true [] ex_src [inl ex_f; inl ex_g; inl ex_l] walk_updater ex_world (Normal "a")
             ex_world (NDir 4096) [] r w');
      try (vm_compute; reflexivity); first [exact E | intros _; reflexivity].
  - vm_compute in E. discriminate E.
Defined.

(** ** C4: the no-clobber test of [copy_single_file] *)

(** C4 (code bug): with no-clobber set, [copy_single_file] refuses an
    existing destination only when it is a regular file ([dest.is_file()]),
    where the walker's no-clobber test refuses any existing destination
    ([target.exists()]).  Copying the file [/a] into the directory [/d]:
    when [/d/a] is an existing directory the test lets the copy go on, and
    it fails later, at [File::create], with the is-a-directory error instead
    of the destination-exists error; when [/d/a] is an existing fifo that no
    process reads, the call does not return: [File::create] waits for a
    reader. *)
Lemma copy_single_file_dir_clash :
  single_dest ex_fs_dir_clash ex_a (opts_into ex_d true) = Some (ex_d ++ [Normal "a"]) /\
  path_exists ex_fs_dir_clash (ex_d ++ [Normal "a"]) = true /\
  (exists w',
     copy_single_file no_fault xfer_all alive 2 10 ex_a (opts_into ex_d true) ex_w_dir_clash
     = Some (inr (IoError IsADirectory), w')) /\
  path_exists ex_fs_fifo_clash (ex_d ++ [Normal "a"]) = true /\
  copy_single_file no_reader xfer_all alive 2 10 ex_a (opts_into ex_d true) ex_w_fifo_clash
  = None.
Proof.
  split; [vm_compute; reflexivity|]. split; [vm_compute; reflexivity|].
  split; [eexists; vm_compute; reflexivity|].
  split; vm_compute; reflexivity.
Qed.

(** ** C5: an entry of unknown kind *)

(** C5 (code bug): walking [/a] (a fifo [/a/f] visited before the file
    [/a/g] and the link [/a/l]) into the missing [/e]: at the fifo the walker
    sends [End] and the unknown-file-type error, then goes on with the next
    entries, sending [Copy] and [Link] after that [End], and sends a second
    [End] when the walk is over; it returns success. *)
Theorem tree_walker_unknown_continues :
  exists w',
    tree_walker alive alive (fun _ => ex_tree) ex_src (opts_into ex_e false) true
                ex_entries walk_updater ex_world = Some (inl tt, w') /\
    work_of (w_out w') =
      [CreateDir ex_e; End; Copy ex_g (ex_e ++ [Normal "g"]);
       Link "../x" (ex_e ++ [Normal "l"]); End] /\
    In (MStat (inr (UnknownFiletype (ex_e ++ [Normal "f"])))) (w_out w').
Proof.
  eexists. split; [vm_compute; reflexivity|]. split; vm_compute; [reflexivity|].
  repeat (first [left; reflexivity | right]).
Qed.

(** ** C6: what [copy_tree] does with a terminal error *)

Lemma drain_no_join stats copied total st :
  ~ In (Join st) (snd (drain stats copied total)).
Proof.
  revert copied total. induction stats as [|[[n|n]|e] rest IH]; intros copied total; simpl.
  - intros [H|H]; [discriminate H | exact H].
  - specialize (IH copied (add_u64 total n)).
    destruct (drain rest copied (add_u64 total n)) as [r evs]. simpl in *.
    intros [H|H]; [discriminate H | exact (IH H)].
  - specialize (IH (add_u64 copied n) total).
    destruct (drain rest (add_u64 copied n) total) as [r evs]. simpl in *.
    intros [H|H]; [discriminate H | exact (IH H)].
  - intros H; exact H.
Qed.

Lemma drain_first_error pre e post copied total :
  Forall (fun m => exists u, m = inl u) pre ->
  fst (drain (pre ++ inr e :: post) copied total) = inr e.
Proof.
  intro H. revert copied total. induction H as [|m pre [u ->] _ IH]; intros copied total.
  - reflexivity.
  - simpl. destruct u as [n|n].
    + specialize (IH copied (add_u64 total n)).
      destruct (drain (pre ++ inr e :: post) copied (add_u64 total n)). exact IH.
    + specialize (IH (add_u64 copied n) total).
      destruct (drain (pre ++ inr e :: post) (add_u64 copied n) total). exact IH.
Qed.

(** C6 (code bug): [copy_tree] does return the first error the stats
    channel yields and reads nothing after it, but it never joins either
    stage, on any stream of statistics. A run in which this shows: no-clobber
    copy of [/a] into [/d] where [/d/a] exists; the walker sends [End] and
    the destination-exists error and exits, the executor stops at [End]
    without a statistic, and [copy_tree] returns the error having spawned
    both stages and joined neither. *)
Theorem copy_tree_never_joins :
  (forall stats st, ~ In (Join st) (snd (copy_tree stats))) /\
  (forall pre e post, Forall (fun m => exists u, m = inl u) pre ->
     fst (copy_tree (pre ++ inr e :: post)) = inr e) /\
  exists w',
    tree_walker alive alive (fun _ => ex_tree) ex_src (opts_into ex_d true) true
                ex_entries_nofifo walk_updater ex_world = Some (inr EarlyShutdown, w') /\
    work_of (w_out w') = [End] /\
    stats_of (w_out w') = [inr (DestinationExists (ex_d ++ [Normal "a"]))] /\
    copy_tree (stats_of (w_out w'))
    = (inr (DestinationExists (ex_d ++ [Normal "a"])),
       [Spawn ExecutorStage; Spawn WalkerStage]).
Proof.
  split; [|split].
  - intros stats st. unfold copy_tree.
    pose proof (drain_no_join stats 0 0 st) as H.
    destruct (drain stats 0 0) as [r evs]. simpl in *.
    intros [E|[E|E]]; [discriminate E | discriminate E | exact (H E)].
  - intros pre e post H. unfold copy_tree.
    pose proof (drain_first_error pre e post 0 0 H) as E.
    destruct (drain (pre ++ inr e :: post) 0 0). exact E.
  - eexists. split; [vm_compute; reflexivity|].
    split; [vm_compute; reflexivity|]. split; vm_compute; reflexivity.
Qed.

(** ** C7: symbolic links *)

(** C7 (counterexample): copying [/a] into [/d], where [/d/a/l] is already a
    regular file: the walker sends [Link "../x" /d/a/l] with the raw text,
    but the executor's [symlink] fails on the taken path, the failure is
    dropped, and after the whole run [/d/a/l] is still the old regular file,
    not a link. *)
Lemma tree_link_not_reproduced :
  exists w1 w2,
    tree_walker alive alive (fun _ => ex_tree) ex_src (opts_into ex_d false) true
                ex_entries_nofifo walk_updater ex_world = Some (inl tt, w1) /\
    In (Link "../x" (ex_d ++ [Normal "a"; Normal "l"])) (work_of (w_out w1)) /\
    copy_worker no_fault xfer_all alive 10 (work_of (w_out w1)) exec_updater w1
    = Some (inl tt, w2) /\
    w_fs w2 (ex_d ++ [Normal "a"; Normal "l"]) = Some (NFile [] 420).
Proof.
  do 2 eexists. split; [vm_compute; reflexivity|].
  split; [vm_compute; repeat (first [left; reflexivity | right])|].
  split; vm_compute; reflexivity.
Qed.

(** A [symlink] that fails changes nothing. *)
Lemma symlink_err_world fault text to w e w1 :
  symlink fault text to w = Some (inr e, w1) -> w1 = w.
Proof.
  unfold symlink. intro H.
  destruct (fault (OpSymlink to)); [inversion H; reflexivity|].
  destruct (lresolve (w_fs w) to) as [q|k]; [|inversion H; reflexivity].
  destruct (w_fs w q); [inversion H; reflexivity|].
  destruct (parent_ok (w_fs w) q); inversion H; reflexivity.
Qed.

(** C7 (amended): for a symbolic-link entry whose destination passes the
    no-clobber test, the walker reads the link's raw text, changes nothing
    on disk, and sends exactly [Link text target] and nothing else when the
    work receiver is still there (it returns the send error, sending
    nothing, when it is gone).  The executor, on [Link text to]: when the
    call is not refused for a reason outside the tree (permissions, a
    read-only filesystem, ...), [to] names a free place [q] (a link at [to]
    itself not followed) and the directory that would hold [q] exists, it
    stores exactly [text] at [q], whatever [text] names, changes no other
    path, and goes on with the next operation; when [symlink] fails, for
    whatever reason and in particular whenever [to] already exists, it
    changes nothing and goes on with the next operation; and [symlink] fails
    whenever the conditions above for storing the link do not all hold. *)
Theorem link_text_verbatim sa wa view t source base opts updates from w txt rel :
  lookup (view t) false from = inl (NLink txt) ->
  strip_prefix from source = Some rel ->
  (path_exists (view t) (entry_target base rel) && noclobber opts) = false ->
  (exists r w',
     walk_entry sa wa view t source base opts updates (inl from) w = Some (r, w') /\
     w_fs w' = w_fs w /\
     (wa (w_nwork w) = true ->
      r = inl tt /\ w_out w' = w_out w ++ [MWork (Link txt (entry_target base rel))]) /\
     (wa (w_nwork w) = false -> r = inr SendError /\ w_out w' = w_out w)) /\
  (forall fault xfer sa' fuel rest upd w0 text to q,
     fault (OpSymlink to) = false ->
     lresolve (w_fs w0) to = inl q -> w_fs w0 q = None -> parent_ok (w_fs w0) q = true ->
     exists w1,
       copy_worker fault xfer sa' fuel (Link text to :: rest) upd w0
       = copy_worker fault xfer sa' fuel rest upd w1 /\
       w_fs w1 q = Some (NLink text) /\
       (forall p, p <> q -> w_fs w1 p = w_fs w0 p)) /\
  (forall fault xfer sa' fuel rest upd w0 text to e w1,
     symlink fault text to w0 = Some (inr e, w1) ->
     w1 = w0 /\
     copy_worker fault xfer sa' fuel (Link text to :: rest) upd w0
     = copy_worker fault xfer sa' fuel rest upd w0) /\
  (forall fault text to w0 n,
     lookup (w_fs w0) false to = inl n ->
     exists e, symlink fault text to w0 = Some (inr e, w0)) /\
  (forall fault text to w0,
     ~ (fault (OpSymlink to) = false /\
        exists q, lresolve (w_fs w0) to = inl q /\ w_fs w0 q = None /\
                  parent_ok (w_fs w0) q = true) ->
     exists e, symlink fault text to w0 = Some (inr e, w0)).
Proof.
  intros Hv Hs Hnc. split; [|split; [|split; [|split]]].
  - unfold walk_entry, lift, ok_or, symlink_metadata, read_link, bind, ret, throw.
    cbv beta iota zeta. rewrite Hv, Hs, Hnc. cbv beta iota.
    unfold send_work. simpl. destruct (wa (w_nwork w)).
    + do 2 eexists. split; [reflexivity|]. split; [reflexivity|].
      split; [intros _; split; reflexivity | intros H; discriminate H].
    + do 2 eexists. split; [reflexivity|]. split; [reflexivity|].
      split; [intros H; discriminate H | intros _; split; reflexivity].
  - intros fault xfer sa' fuel rest upd w0 text to q Hf Hq Hto Hp.
    eexists. split.
    + simpl. unfold bind, discard, symlink. rewrite Hf, Hq, Hto, Hp. reflexivity.
    + simpl. split; [apply fs_set_same|]. intros p Hpq. apply fs_set_other, Hpq.
  - intros fault xfer sa' fuel rest upd w0 text to e w1 H.
    pose proof (symlink_err_world _ _ _ _ _ _ H) as ->. split; [reflexivity|].
    simpl. unfold bind, discard. rewrite H. reflexivity.
  - intros fault text to w0 n H. unfold symlink.
    destruct (fault (OpSymlink to)); [eexists; reflexivity|].
    unfold lookup in H. fold (lresolve (w_fs w0) to) in H.
    destruct (lresolve (w_fs w0) to) as [q|k]; [|discriminate H].
    destruct (w_fs w0 q); [eexists; reflexivity | discriminate H].
  - intros fault text to w0 H. unfold symlink.
    destruct (fault (OpSymlink to)) eqn:Hf; [eexists; reflexivity|].
    destruct (lresolve (w_fs w0) to) as [q|k] eqn:Hq; [|eexists; reflexivity].
    destruct (w_fs w0 q) eqn:Ho; [eexists; reflexivity|].
    destruct (parent_ok (w_fs w0) q) eqn:Hp; [|eexists; reflexivity].
    exfalso. apply H. split; [reflexivity|]. exists q. auto.
Qed.

Lemma link_text_verbatim_witness :
  (exists r w',
     walk_entry alive alive (fun _ => ex_tree) 3 ex_src ex_e (opts_into ex_e false)
                walk_updater (inl ex_l) ex_world = Some (r, w') /\
     w_fs w' = w_fs ex_world /\
     (alive (w_nwork ex_world) = true ->
      r = inl tt /\
      w_out w' = w_out ex_world ++ [MWork (Link "../x" (entry_target ex_e [Normal "l"]))]) /\
     (alive (w_nwork ex_world) = false -> r = inr SendError /\ w_out w' = w_out ex_world)) /\
  (forall fault xfer sa' fuel rest upd w0 text to q,
     fault (OpSymlink to) = false ->
     lresolve (w_fs w0) to = inl q -> w_fs w0 q = None -> parent_ok (w_fs w0) q = true ->
     exists w1,
       copy_worker fault xfer sa' fuel (Link text to :: rest) upd w0
       = copy_worker fault xfer sa' fuel rest upd w1 /\
       w_fs w1 q = Some (NLink text) /\
       (forall p, p <> q -> w_fs w1 p = w_fs w0 p)) /\
  (forall fault xfer sa' fuel rest upd w0 text to e w1,
     symlink fault text to w0 = Some (inr e, w1) ->
     w1 = w0 /\
     copy_worker fault xfer sa' fuel (Link text to :: rest) upd w0
     = copy_worker fault xfer sa' fuel rest upd w0) /\
  (forall fault text to w0 n,
     lookup (w_fs w0) false to = inl n ->
     exists e, symlink fault text to w0 = Some (inr e, w0)) /\
  (forall fault text to w0,
     ~ (fault (OpSymlink to) = false /\
        exists q, lresolve (w_fs w0) to = inl q /\ w_fs w0 q = None /\
                  parent_ok (w_fs w0) q = true) ->
     exists e, symlink fault text to w0 = Some (inr e, w0)).
Proof.
  apply (link_text_verbatim alive alive (fun _ => ex_tree) 3 ex_src ex_e (opts_into ex_e false)
           walk_updater ex_l ex_world "../x" [Normal "l"]); vm_compute; reflexivity.
Defined.

(** ** C8: failures the executor drops *)

(** C8: on [Link] and on [Copy] the executor throws the operation's result
    away: when [symlink] or [copy_file] fails, the loop goes on with the
    next operation from the world the failed call left behind. *)
Theorem copy_worker_swallows fault xfer sa fuel updates rest w :
  (forall txt to e w1, symlink fault txt to w = Some (inr e, w1) ->
     copy_worker fault xfer sa fuel (Link txt to :: rest) updates w
     = copy_worker fault xfer sa fuel rest updates w1) /\
  (forall from to e w1, copy_file fault xfer sa fuel from to updates w = Some (inr e, w1) ->
     copy_worker fault xfer sa fuel (Copy from to :: rest) updates w
     = copy_worker fault xfer sa fuel rest updates w1).
Proof.
  split.
  - intros txt to e w1 E. simpl. unfold bind, discard. rewrite E. reflexivity.
  - intros from to e w1 E. simpl. unfold bind, discard. rewrite E. reflexivity.
Qed.

Lemma copy_worker_swallows_witness :
  copy_worker no_fault xfer_all alive 10
    [Link "../x" (ex_d ++ [Normal "a"; Normal "l"]); Copy ex_e ex_b] exec_updater ex_world
  = copy_worker no_fault xfer_all alive 10 [Copy ex_e ex_b] exec_updater ex_world /\
  copy_worker no_fault xfer_all alive 10 [Copy ex_e ex_b; CreateDir ex_b] exec_updater ex_world
  = copy_worker no_fault xfer_all alive 10 [CreateDir ex_b] exec_updater ex_world.
Proof.
  split.
  - apply (proj1 (copy_worker_swallows no_fault xfer_all alive 10 exec_updater
                    [Copy ex_e ex_b] ex_world) _ _ (IoError AlreadyExists)).
    vm_compute. reflexivity.
  - apply (proj2 (copy_worker_swallows no_fault xfer_all alive 10 exec_updater
                    [CreateDir ex_b] ex_world) _ _ (IoError NotFound)).
    vm_compute. reflexivity.
Defined.

(** ** C9: the stages' own results are never read *)

Section ExecOut.
Variable good : Msg -> Prop.

Lemma pres_out_fixed {A} (m : M World A) :
  (forall w r w', m w = Some (r, w') -> w_out w' = w_out w) ->
  preserves (outs_ok good) m.
Proof. intros Hm w r w' H E. unfold outs_ok in *. rewrite (Hm w r w' E). exact H. Qed.

Lemma pres_diverge {A} : preserves (outs_ok good) (@diverge World A).
Proof. intros w r w' _ E. discriminate E. Qed.

Lemma pres_discard {A} (m : M World A) :
  preserves (outs_ok good) m -> preserves (outs_ok good) (discard m).
Proof.
  intros Hm w r w' H E. unfold discard in E.
  destruct (m w) as [[r1 w1]|] eqn:Em; [|discriminate E].
  inversion E; subst. exact (Hm w r1 w' H Em).
Qed.

End ExecOut.

Ltac out_fixed :=
  apply pres_out_fixed; intros ? ? ? E;
  repeat match type of E with
         | context [match ?x with _ => _ end] => destruct x
         | context [if ?x then _ else _] => destruct x
         end;
  inversion E; subst; reflexivity.

Lemma pres_copy_file_bytes good xfer infd outfd pos n :
  preserves (outs_ok good) (copy_file_bytes xfer infd outfd pos n).
Proof. unfold copy_file_bytes. out_fixed. Qed.

Lemma mkdir_out fault p w r w' :
  mkdir fault p w = Some (r, w') -> w_out w' = w_out w.
Proof.
  unfold mkdir. intro E.
  destruct (fault (OpMkdir p)); [inversion E; reflexivity|].
  destruct (lresolve (w_fs w) p) as [q|k]; [|inversion E; reflexivity].
  destruct (w_fs w q); [inversion E; reflexivity|].
  destruct (parent_ok (w_fs w) q); inversion E; reflexivity.
Qed.

Lemma create_dir_all_out fault :
  forall n p w r w', create_dir_all_n fault n p w = Some (r, w') -> w_out w' = w_out w.
Proof.
  induction n as [|n IH]; intros p w r w' E; simpl in E;
    (destruct (empty p); [inversion E; reflexivity|]);
    (destruct (mkdir fault p w) as [[[u|e] w1]|] eqn:Em; [| |discriminate E]);
    pose proof (mkdir_out _ _ _ _ _ Em) as H1;
    try (inversion E; subst; exact H1).
  - destruct (is_not_found e); [destruct (parent p); [discriminate E|]|];
      [inversion E; subst; exact H1|].
    destruct (is_dir (w_fs w1) p); inversion E; subst; exact H1.
  - destruct (is_not_found e).
    + destruct (parent p) as [par|]; [|inversion E; subst; exact H1].
      destruct (create_dir_all_n fault n par w1) as [[[u|e2] w2]|] eqn:Ec;
        [| inversion E; subst; rewrite (IH _ _ _ _ Ec); exact H1 | discriminate E].
      pose proof (IH _ _ _ _ Ec) as H2.
      destruct (mkdir fault p w2) as [[[u3|e3] w3]|] eqn:Em3; [| |discriminate E];
        pose proof (mkdir_out _ _ _ _ _ Em3) as H3.
      * inversion E; subst. congruence.
      * destruct (is_dir (w_fs w3) p); inversion E; subst; congruence.
    + destruct (is_dir (w_fs w1) p); inversion E; subst; exact H1.
Qed.

Lemma copy_worker_exec_good fault xfer sa fuel :
  forall ops updates, preserves (outs_ok exec_good) (copy_worker fault xfer sa fuel ops updates).
Proof.
  assert (Hu : forall bu n, preserves (outs_ok exec_good) (update sa bu (inl n))).
  { intros bu n. apply pres_update; [intro u; exists u; reflexivity|].
    intros e He; discriminate He. }
  assert (Hloop : forall f infd outfd bu len written,
             preserves (outs_ok exec_good) (copy_loop xfer sa f infd outfd bu len written)).
  { induction f as [|f IH]; intros infd outfd bu len written; simpl;
      (destruct (written <? len)%N; [|apply pres_ret]).
    - apply pres_diverge.
    - apply pres_bind; [apply pres_copy_file_bytes|]. intros r.
      apply pres_bind; [apply Hu|]. intros _. apply IH. }
  induction ops as [|op ops IH]; intros updates; simpl; [apply pres_ret|].
  destruct op as [from to|txt to|dir|].
  - apply pres_bind; [|intros _; apply IH]. apply pres_discard.
    unfold copy_file.
    apply pres_bind; [unfold file_open; out_fixed|]. intros infd.
    apply pres_bind; [unfold file_create; out_fixed|]. intros outfd.
    apply pres_bind; [unfold fd_metadata; out_fixed|]. intros meta.
    apply pres_bind; [apply Hloop|]. intros written.
    apply pres_bind; [unfold set_permissions; out_fixed|]. intros _.
    apply pres_ret.
  - apply pres_bind; [|intros _; apply IH]. apply pres_discard.
    unfold symlink. out_fixed.
  - apply pres_bind.
    + apply pres_out_fixed. intros w r w' E. exact (create_dir_all_out _ _ _ _ _ _ E).
    + intros _. apply pres_bind; [unfold path_metadata; out_fixed|]. intros m.
      apply pres_bind; [apply Hu|]. intros _. apply IH.
  - apply pres_ret.
Qed.

Lemma stats_of_exec out x :
  Forall exec_good out -> In x (stats_of out) -> exists u, x = inl u.
Proof.
  induction 1 as [|m out [u ->] _ IH]; simpl; [tauto|].
  intros [<-|Hx]; [exists u; reflexivity | exact (IH Hx)].
Qed.

Lemma interleave_in {A} (l1 l2 l : list A) x :
  interleave l1 l2 l -> In x l -> In x l1 \/ In x l2.
Proof.
  induction 1; simpl; [tauto| |]; intros [<-|Hx]; auto;
    destruct (IHinterleave Hx); auto.
Qed.

Lemma drain_error_in stats copied total e :
  fst (drain stats copied total) = inr e -> In (inr e) stats.
Proof.
  revert copied total. induction stats as [|[[n|n]|e'] rest IH]; intros copied total; simpl.
  - intro H; discriminate H.
  - specialize (IH copied (add_u64 total n)).
    destruct (drain rest copied (add_u64 total n)) as [r evs]. simpl in *. auto.
  - specialize (IH (add_u64 copied n) total).
    destruct (drain rest (add_u64 copied n) total) as [r evs]. simpl in *. auto.
  - intro H; inversion H; subst; auto.
Qed.

(** C9: whatever the executor returns (an error of [create_dir_all] or of
    the metadata query on [CreateDir] included), it only ever delivers
    progress statistics on the stats channel; so, however its statistics
    are interleaved with the walker's, [copy_tree] returns an error only if
    the walker sent that error on the channel, and returns success when the
    walker sent none. *)
Theorem copy_tree_ignores_stage_results fault xfer sa fuel ops updates w r w' wstats :
  w_out w = [] ->
  copy_worker fault xfer sa fuel ops updates w = Some (r, w') ->
  forall s, interleave wstats (stats_of (w_out w')) s ->
  (forall e, fst (copy_tree s) = inr e -> In (inr e) wstats) /\
  ((forall e, ~ In (inr e) wstats) -> fst (copy_tree s) = inl tt).
Proof.
  intros H0 Hrun s Hs.
  assert (Hgood : Forall exec_good (w_out w')).
  { apply (copy_worker_exec_good fault xfer sa fuel ops updates w r w'); [|exact Hrun].
    unfold outs_ok. rewrite H0. constructor. }
  assert (Herr : forall e, fst (copy_tree s) = inr e -> In (inr e) wstats).
  { intros e He. unfold copy_tree in He.
    pose proof (drain_error_in s 0 0 e) as Hd.
    destruct (drain s 0 0) as [r0 evs]. simpl in *.
    destruct (interleave_in _ _ _ (inr e) Hs (Hd He)) as [Hw|Hx]; [exact Hw|].
    destruct (stats_of_exec _ _ Hgood Hx) as [u Hu]. discriminate Hu. }
  split; [exact Herr|].
  intros Hno. destruct (fst (copy_tree s)) as [[]|e] eqn:E; [reflexivity|].
  exfalso. exact (Hno e (Herr e eq_refl)).
Qed.

Lemma copy_tree_ignores_stage_results_witness :
  copy_worker mkdir_fault xfer_all alive 10 [CreateDir ex_e; Copy ex_g ex_b] exec_updater ex_world
  = Some (inr (IoError Injected), ex_world) /\
  fst (copy_tree [inl (Size 1)]) = inl tt.
Proof.
  split; [vm_compute; reflexivity|].
  apply (proj2 (copy_tree_ignores_stage_results mkdir_fault xfer_all alive 10
                  [CreateDir ex_e; Copy ex_g ex_b] exec_updater ex_world
                  (inr (IoError Injected)) ex_world [inl (Size 1)]
                  eq_refl ltac:(vm_compute; reflexivity) [inl (Size 1)]
                  (il_left _ _ _ _ il_nil))).
  intros e [H|H]; [discriminate H | exact H].
Defined.

(** * Further properties of the module *)

(** ** [copy_file] *)

(** [File::open] comes before [File::create]: when the source cannot be
    opened, [copy_file] fails with that error and the world is left as it
    was; in particular the destination is neither created nor truncated. *)
Theorem copy_file_open_failure fault xfer sa fuel from to updates w e w1 :
  file_open fault from w = Some (inr e, w1) ->
  copy_file fault xfer sa fuel from to updates w = Some (inr e, w).
Proof.
  intro H. pose proof (file_open_world _ _ _ _ _ H) as ->.
  unfold copy_file, bind. rewrite H. reflexivity.
Qed.

Lemma copy_file_open_failure_witness :
  copy_file no_fault xfer_all alive 10 ex_e ex_b exec_updater ex_w
  = Some (inr (IoError NotFound), ex_w).
Proof.
  apply (copy_file_open_failure no_fault xfer_all alive 10 ex_e ex_b exec_updater ex_w
           (IoError NotFound) ex_w).
  vm_compute. reflexivity.
Defined.



(** The order of the file operations of a successful [copy_file]: the
    destination, the place [to] leads to (symbolic links followed), is
    created (or truncated) first, then come the chunk transfers into it,
    then a single permission update of it; the returned count is the sum of
    the bytes the transfers moved. *)
Theorem copy_file_op_order fault xfer sa fuel from to updates w r w' :
  copy_file fault xfer sa fuel from to updates w = Some (inl r, w') ->
  exists pd perm ts,
    resolve (w_fs w) to = inl pd /\
    w_log w' = w_log w ++ EvCreate pd :: map (EvTransfer pd) ts ++ [EvSetPerm pd perm] /\
    r = sumN ts.
Proof.
  intro H. unfold copy_file, bind in H.
  destruct (file_open fault from w) as [[[ps|e] w0]|] eqn:Eo; try discriminate H.
  pose proof (file_open_world _ _ _ _ _ Eo); subst w0.
  destruct (file_create fault to w) as [[[pd|e] w1]|] eqn:Ec; try discriminate H.
  destruct (file_create_spec _ _ _ _ _ Ec) as [Hres [Hl1 _]].
  destruct (fd_metadata fault ps w1) as [[[m|e] w2]|] eqn:Em; try discriminate H.
  pose proof (fd_metadata_world _ _ _ _ _ Em); subst w2.
  destruct (copy_loop xfer sa fuel ps pd updates (m_len m) 0 w1)
    as [[[n|e] w3]|] eqn:El; try discriminate H.
  destruct (copy_loop_log _ _ _ _ _ _ _ _ _ _ _ El) as [ts [Hl3 Hn]].
  destruct (set_permissions fault pd (m_perm m) w3) as [[[[]|e] w4]|] eqn:Es;
    try discriminate H.
  destruct (set_permissions_effect _ _ _ _ _ Es) as [Hl4 _].
  unfold ret in H. inversion H; subst.
  exists pd, (m_perm m), ts.
  rewrite Hl4, Hl3, Hl1, <- !app_assoc. simpl.
  split; [exact Hres|]. split; [reflexivity|]. lia.
Qed.

Lemma copy_file_op_order_witness :
  exists w',
    copy_file no_fault xfer_all alive 10 ex_a ex_b exec_updater ex_w = Some (inl 3%N, w') /\
    exists pd perm ts,
      resolve (w_fs ex_w) ex_b = inl pd /\
      w_log w' = w_log ex_w ++ EvCreate pd :: map (EvTransfer pd) ts ++ [EvSetPerm pd perm] /\
      3%N = sumN ts.
Proof.
  eexists. split; [vm_compute; reflexivity|].
  apply (copy_file_op_order no_fault xfer_all alive 10 ex_a ex_b exec_updater ex_w).
  vm_compute. reflexivity.
Defined.

(** ** [copy_worker] *)

(** Nothing after [End] is ever performed: on [pre ++ End :: post] the
    executor does exactly what it does on [pre] alone, whatever [post]
    holds. *)
Theorem copy_worker_end_cuts fault xfer sa fuel updates post :
  forall pre w,
  copy_worker fault xfer sa fuel (pre ++ End :: post) updates w
  = copy_worker fault xfer sa fuel pre updates w.
Proof.
  induction pre as [|op pre IH]; intro w; [reflexivity|].
  destruct op as [from to|txt to|dir|]; simpl; try reflexivity;
    repeat (apply bind_ext_at; intros ? ?); apply IH.
Qed.

Ltac walk_cases H :=
  repeat match type of H with
  | context [match ?x with _ => _ end] =>
      lazymatch x with
      | walk_comps _ _ _ _ _ => fail
      | _ => destruct x eqn:?; try discriminate H
      end
  end.

Lemma walk_comps_nofollow fs rec :
  forall p acc q,
  walk_comps fs rec true acc p = inl q -> fs q <> None ->
  exists q', walk_comps fs rec false acc p = inl q' /\ fs q' <> None.
Proof.
  induction p as [|c p IH]; intros acc q H Hq; simpl in H |- *.
  - inversion H; subst. eauto.
  - destruct (empty p) eqn:Ep; simpl in H |- *.
    + destruct c; simpl in H |- *; try (inversion H; subst; eauto; fail).
      destruct (fs (acc ++ [Normal s])) as [[d pm|l|t|]|] eqn:E; simpl in H |- *;
        try (inversion H; subst; eauto; fail).
      eexists; split; [reflexivity|]. rewrite E. discriminate.
    + destruct c; simpl in H |- *;
        [| | |destruct (fs (acc ++ [Normal s])) as [[d pm|l|t|]|] eqn:E; simpl in H |- *];
        walk_cases H; eauto; try (inversion H; subst; eauto).
Qed.

Lemma walk_comps_app fs rec f :
  forall p r acc q n,
  p <> [] -> r <> [] ->
  walk_comps fs rec true acc p = inl q -> fs q = Some n -> (forall l, n <> NDir l) ->
  walk_comps fs rec f acc (p ++ r) = inr NotADirectory.
Proof.
  induction p as [|c p IH]; intros r acc q n Hp Hr H Hq Hn; [congruence|].
  simpl in H |- *.
  assert (Er : empty (p ++ r) = false).
  { destruct p; destruct r; simpl; congruence. }
  rewrite Er. simpl.
  destruct (empty p) eqn:Ep; simpl in H.
  - destruct p; [|discriminate Ep].
    destruct c; simpl in H |- *;
      [| | |destruct (fs (acc ++ [Normal s])) as [[d pm|l|t|]|] eqn:E; simpl in H |- *];
      rewrite ?orb_true_r; walk_cases H; inversion H; subst; rewrite Hq;
      destruct n; try reflexivity; exfalso; eapply Hn; reflexivity.
  - assert (Hp' : p <> []) by (destruct p; discriminate).
    destruct c; simpl in H |- *;
      [| | |destruct (fs (acc ++ [Normal s])) as [[d pm|l|t|]|] eqn:E; simpl in H |- *];
      rewrite ?orb_true_r; walk_cases H; eauto.
Qed.

Lemma res_path_nofollow n fs acc p q :
  res_path n fs true acc p = inl q -> fs q <> None ->
  exists q', res_path n fs false acc p = inl q' /\ fs q' <> None.
Proof. destruct n; apply walk_comps_nofollow. Qed.

Lemma res_path_app n fs f acc p r q nd :
  p <> [] -> r <> [] ->
  res_path n fs true acc p = inl q -> fs q = Some nd -> (forall l, nd <> NDir l) ->
  res_path n fs f acc (p ++ r) = inr NotADirectory.
Proof. destruct n; apply walk_comps_app. Qed.

(** [mkdir] on a path that names a node fails with AlreadyExists (or the
    injected error) and changes nothing. *)
Lemma mkdir_taken fault p w nd :
  stat (w_fs w) p = Some nd ->
  exists e, mkdir fault p w = Some (inr e, w) /\ is_not_found e = false.
Proof.
  unfold stat, lookup, mkdir, lresolve. intro Hs.
  destruct (fault (OpMkdir p)); [eexists; split; reflexivity|].
  destruct (res_path 40 (w_fs w) true [] p) as [q|k] eqn:E; [|discriminate Hs].
  destruct (res_path_nofollow _ _ _ _ _ E) as [q' [E' Hq']];
    [destruct (w_fs w q); congruence|].
  rewrite E'. destruct (w_fs w q'); [|congruence]. eexists; split; reflexivity.
Qed.

Lemma stat_blocked fs p k nd :
  1 <= k < length p ->
  stat fs (firstn k p) = Some nd -> (forall l, nd <> NDir l) ->
  forall f, res_path 40 fs f [] p = inr NotADirectory.
Proof.
  unfold stat, lookup. intros Hk Hs Hn f.
  destruct (res_path 40 fs true [] (firstn k p)) as [q|e] eqn:E; [|discriminate Hs].
  destruct (fs q) as [nd'|] eqn:Eq; [|discriminate Hs]. inversion Hs; subst nd'.
  rewrite <- (firstn_skipn k p).
  apply (res_path_app _ _ _ _ _ _ q nd); auto.
  - destruct p; simpl in Hk; [lia|]. destruct k; [lia|]. discriminate.
  - intro H. apply (f_equal (@length component)) in H.
    rewrite length_skipn in H. simpl in H. lia.
Qed.

Lemma mkdir_blocked fault p w k nd :
  1 <= k < length p ->
  stat (w_fs w) (firstn k p) = Some nd -> (forall l, nd <> NDir l) ->
  mkdir fault p w = Some (inr (IoError (if fault (OpMkdir p) then Injected else NotADirectory)), w) /\
  is_dir (w_fs w) p = false.
Proof.
  intros Hk Hs Hn. pose proof (stat_blocked _ _ _ _ Hk Hs Hn) as B.
  unfold mkdir, lresolve, is_dir, stat, lookup. rewrite !B.
  destruct (fault (OpMkdir p)); split; reflexivity.
Qed.

(** [create_dir_all] when the first [mkdir] fails for another reason than a
    missing parent: success exactly when [p] is by then a directory. *)
Lemma create_dir_all_first_fail fault n p w e :
  p <> [] ->
  mkdir fault p w = Some (inr e, w) -> is_not_found e = false ->
  create_dir_all_n fault n p w = Some (if is_dir (w_fs w) p then inl tt else inr e, w).
Proof.
  intros Hp Hm He. destruct n; simpl;
    (destruct p; [congruence|]); simpl; rewrite Hm, He; destruct (is_dir (w_fs w) _); reflexivity.
Qed.

(** When [dir] or one of its ancestors exists and is not a directory (the
    ancestors above it being directories), [CreateDir dir] fails and,
    unlike a failed [Copy] or [Link], ends the executor with that error at
    once: none of the following operations is performed and the world is
    left as it was. *)
Theorem copy_worker_createdir_blocked fault xfer sa fuel updates rest dir w k n :
  1 <= k <= List.length dir ->
  (forall j, 1 <= j < k -> is_dir (w_fs w) (firstn j dir) = true) ->
  stat (w_fs w) (firstn k dir) = Some n ->
  (forall l, n <> NDir l) ->
  exists e, copy_worker fault xfer sa fuel (CreateDir dir :: rest) updates w = Some (inr e, w).
Proof.
  intros Hk _ Hs Hn.
  assert (Hne : dir <> []) by (destruct dir; simpl in Hk; [lia|discriminate]).
  simpl. unfold bind, create_dir_all.
  destruct (Nat.lt_ge_cases k (List.length dir)) as [Hlt|Hge].
  - destruct (mkdir_blocked fault dir w k n (conj (proj1 Hk) Hlt) Hs Hn) as [Hm Hd].
    rewrite (create_dir_all_first_fail _ _ _ _ _ Hne Hm), Hd;
      [eexists; reflexivity|].
    destruct (fault (OpMkdir dir)); reflexivity.
  - rewrite firstn_all2 in Hs by lia.
    destruct (mkdir_taken fault dir w n Hs) as [e [Hm He]].
    rewrite (create_dir_all_first_fail _ _ _ _ _ Hne Hm He).
    unfold is_dir. rewrite Hs.
    destruct n; [eexists; reflexivity| |eexists; reflexivity|eexists; reflexivity].
    exfalso; eapply Hn; reflexivity.
Qed.

Lemma copy_worker_createdir_blocked_witness :
  exists e,
    copy_worker no_fault xfer_all alive 10 (CreateDir (ex_g ++ [Normal "x"]) :: [Copy ex_g ex_b])
                exec_updater ex_world = Some (inr e, ex_world).
Proof.
  apply (copy_worker_createdir_blocked no_fault xfer_all alive 10 exec_updater [Copy ex_g ex_b]
           (ex_g ++ [Normal "x"]) ex_world 3 (NFile [Byte.x41] 384)).
  - simpl. lia.
  - intros j Hj. destruct j as [|[|[|j]]]; try lia; vm_compute; reflexivity.
  - vm_compute. reflexivity.
  - intros l H. discriminate H.
Defined.



(** ** [tree_walker] *)

Ltac dest_head x :=
  lazymatch x with
  | Some _ => fail
  | None => fail
  | (match ?y with _ => _ end) _ => dest_head y
  | match ?y with _ => _ end => dest_head y
  | m_kind (node_meta ?n) => destruct n
  | _ => destruct x eqn:?
  end.

(** Case analysis on the outermost test of a computation run in [H]. *)
Ltac head_split H :=
  repeat (cbv beta iota zeta delta [node_meta m_kind] in H;
          match type of H with ?l = _ => dest_head l end).





(** An error yielded by the directory walk ends the walker with that error:
    the entries after it are not visited and no [End] is sent (the executor
    stops only when the work channel closes). *)
Theorem tree_walker_walk_error sa wa view source opts ib pre e post updates w sd w1 :
  last_component source = Some sd ->
  (gitignore opts = true -> ib = true) ->
  walk_entries sa wa view 1 source (target_base_of (view 0) sd opts) opts updates pre w
  = Some (inl tt, w1) ->
  tree_walker sa wa view source opts ib (pre ++ inr e :: post) updates w = Some (inr e, w1).
Proof.
  intros Hsd Hib Hpre. unfold tree_walker, ok_or. rewrite Hsd.
  unfold bind at 1, ret. cbv beta iota zeta.
  replace (gitignore opts && negb ib) with false
    by (destruct (gitignore opts); [rewrite (Hib eq_refl) | ]; reflexivity).
  unfold bind at 1. cbv beta iota zeta.
  unfold bind at 1. rewrite walk_entries_app. unfold bind at 1. rewrite Hpre.
  simpl walk_entries. unfold bind, walk_entry, lift, throw. reflexivity.
Qed.

Lemma tree_walker_walk_error_witness :
  exists w1,
    walk_entries alive alive (fun _ => ex_tree) 1 ex_src
                 (target_base_of ex_tree (Normal "a") (opts_into ex_e false))
                 (opts_into ex_e false) walk_updater [inl ex_src] ex_world
    = Some (inl tt, w1) /\
    tree_walker alive alive (fun _ => ex_tree) ex_src (opts_into ex_e false) true
                [inl ex_src; inr WalkError; inl ex_g] walk_updater ex_world
    = Some (inr WalkError, w1).
Proof.
  eexists. split; [vm_compute; reflexivity|].
  apply (tree_walker_walk_error alive alive (fun _ => ex_tree) ex_src (opts_into ex_e false)
           true [inl ex_src] WalkError [inl ex_g] walk_updater ex_world (Normal "a")).
  - reflexivity.
  - intros _; reflexivity.
  - vm_compute. reflexivity.
Defined.

(** With the gitignore option set, when [GitignoreBuilder::build] fails
    the walker returns the gitignore error before visiting any entry: it
    sends nothing, not even [End], and leaves the world as it was. *)
Theorem tree_walker_gitignore_build_error sa wa view source opts entries updates w sd :
  last_component source = Some sd ->
  gitignore opts = true ->
  tree_walker sa wa view source opts false entries updates w = Some (inr GitignoreError, w).
Proof.
  intros Hsd Hg. unfold tree_walker, ok_or. rewrite Hsd.
  unfold bind, ret, throw. rewrite Hg. reflexivity.
Qed.

Lemma tree_walker_gitignore_build_error_witness :
  tree_walker alive alive (fun _ => ex_tree) ex_src (mkOpts ex_e false false true) false
              ex_entries walk_updater ex_world = Some (inr GitignoreError, ex_world).
Proof.
  apply (tree_walker_gitignore_build_error alive alive (fun _ => ex_tree) ex_src
           (mkOpts ex_e false false true) ex_entries walk_updater ex_world (Normal "a"));
    reflexivity.
Defined.

Lemma pres_send_work_disk fs0 log0 wa op : preserves (disk_is fs0 log0) (send_work wa op).
Proof.
  intros w r w' H E. unfold send_work in E. unfold disk_is in *.
  destruct (wa (w_nwork w)); inversion E; subst; exact H.
Qed.

Lemma pres_update_disk fs0 log0 sa bu r : preserves (disk_is fs0 log0) (update sa bu r).
Proof.
  intros w r' w' [Hf Hl] E. destruct (update_fs _ _ _ _ _ _ E) as [Hf' [Hl' _]].
  split; congruence.
Qed.

Ltac disk_step :=
  first
  [ apply pres_bind_ret
  | apply pres_bind_throw
  | apply pres_ret
  | apply pres_throw
  | apply pres_send_work_disk
  | apply pres_update_disk
  | apply pres_bind; [| intros ?]
  | match goal with
    | |- preserves _ (bind (match ?x with _ => _ end) _) => destruct x
    | |- preserves _ (match ?x with _ => _ end) => destruct x
    | |- preserves _ (if ?x then _ else _) => destruct x
    end ].

Lemma walk_entry_disk sa wa view t source base opts updates e fs0 log0 :
  preserves (disk_is fs0 log0) (walk_entry sa wa view t source base opts updates e).
Proof.
  unfold walk_entry.
  destruct e as [from|err]; cbn [lift]; [|apply pres_bind_throw].
  apply pres_bind_ret || idtac.
  unfold symlink_metadata, read_link, walk_metadata, ok_or.
  repeat disk_step.
Qed.

Lemma walk_entries_disk sa wa view source base opts updates fs0 log0 :
  forall es t, preserves (disk_is fs0 log0) (walk_entries sa wa view t source base opts updates es).
Proof.
  induction es as [|e es IH]; intro t; simpl; [apply pres_ret|].
  apply pres_bind; [apply walk_entry_disk | intros _; apply IH].
Qed.

(** The walker only reads: whatever it meets and however it ends, it
    leaves the filesystem unchanged and performs no filesystem operation
    (its work goes to the executor through the channel). *)
Theorem tree_walker_read_only sa wa view source opts ib entries updates w r w' :
  tree_walker sa wa view source opts ib entries updates w = Some (r, w') ->
  w_fs w' = w_fs w /\ w_log w' = w_log w.
Proof.
  intro E.
  assert (P : preserves (disk_is (w_fs w) (w_log w))
                        (tree_walker sa wa view source opts ib entries updates)).
  { unfold tree_walker, ok_or.
    destruct (last_component source); [apply pres_bind_ret | apply pres_bind_throw].
    apply pres_bind;
      [destruct (gitignore opts && negb ib); [apply pres_throw | apply pres_ret] | intros _].
    apply pres_bind; [apply walk_entries_disk | intros _; apply pres_send_work_disk]. }
  exact (P w r w' (conj eq_refl eq_refl) E).
Qed.

Lemma tree_walker_read_only_witness :
  exists r w',
    tree_walker alive alive (fun _ => ex_tree) ex_src (opts_into ex_d false) true
                ex_entries walk_updater ex_world = Some (r, w') /\
    w_fs w' = w_fs ex_world /\ w_log w' = w_log ex_world.
Proof.
  do 2 eexists. split; [vm_compute; reflexivity|].
  eapply (tree_walker_read_only alive alive (fun _ => ex_tree) ex_src (opts_into ex_d false)
           true ex_entries walk_updater ex_world).
  vm_compute. reflexivity.
Defined.

Lemma walk_entry_clobber sa wa view t source base opts updates e w r w' :
  noclobber opts = false ->
  e <> inr EarlyShutdown ->
  walk_entry sa wa view t source base opts updates e w = Some (r, w') ->
  r <> inr EarlyShutdown /\
  exists new, w_out w' = w_out w ++ new /\
              forall p, ~ In (MStat (inr (DestinationExists p))) new.
Proof.
  intros Hnc He H. destruct e as [from|err].
  - unfold walk_entry, lift, ok_or, symlink_metadata, read_link, walk_metadata in H.
    unfold bind, send_work, update, send_stat, ret, throw in H.
    head_split H; try discriminate H;
      try match goal with
          | Hb : _ && noclobber opts = true |- _ =>
              rewrite Hnc, andb_false_r in Hb; discriminate Hb
          end;
      inversion H; subst; (split; [intro Hr; discriminate Hr|]); cbn [w_out]; eexists;
      (split; [first [rewrite <- ?app_assoc; reflexivity | symmetry; apply app_nil_r]|]);
      simpl; intros ?; intuition discriminate.
  - unfold walk_entry, lift, bind, throw in H. inversion H; subst.
    split; [intro Hr; apply He; inversion Hr; reflexivity|]. exists []. rewrite app_nil_r. split; [reflexivity | intros ? []].
Qed.

Lemma walk_entries_clobber sa wa view source base opts updates :
  noclobber opts = false ->
  forall es t w r w',
  ~ In (inr EarlyShutdown) es ->
  walk_entries sa wa view t source base opts updates es w = Some (r, w') ->
  r <> inr EarlyShutdown /\
  exists new, w_out w' = w_out w ++ new /\
              forall p, ~ In (MStat (inr (DestinationExists p))) new.
Proof.
  intros Hnc. induction es as [|e es IH]; intros t w r w' Hes H; simpl in H.
  - unfold ret in H. inversion H; subst. split; [intro Hr; discriminate Hr|].
    exists []. rewrite app_nil_r. split; [reflexivity | intros ? []].
  - unfold bind in H.
    assert (He : e <> inr EarlyShutdown) by (intro Heq; apply Hes; left; exact Heq).
    destruct (walk_entry sa wa view t source base opts updates e w)
      as [[[[]|err] w1]|] eqn:E1; try discriminate H.
    + destruct (walk_entry_clobber _ _ _ _ _ _ _ _ _ _ _ _ Hnc He E1) as [_ [n1 [Ho1 Hn1]]].
      destruct (IH (S t) w1 r w') as [Hr [n2 [Ho2 Hn2]]];
        [intro Hin; apply Hes; now right | exact H |].
      split; [exact Hr|]. exists (n1 ++ n2). rewrite Ho2, Ho1, app_assoc.
      split; [reflexivity|]. intros p Hin. apply in_app_or in Hin.
      destruct Hin as [Hin|Hin]; [exact (Hn1 p Hin) | exact (Hn2 p Hin)].
    + inversion H; subst.
      exact (walk_entry_clobber _ _ _ _ _ _ _ _ _ _ _ _ Hnc He E1).
Qed.

(** With no-clobber off, existing destinations never stop the walker: it
    never reports a destination-exists error and never returns the
    early-shutdown error (existing files are left for the executor to
    overwrite). *)
Theorem tree_walker_clobber_never_aborts sa wa view source opts ib entries updates w r w' :
  noclobber opts = false ->
  ~ In (inr EarlyShutdown) entries ->
  tree_walker sa wa view source opts ib entries updates w = Some (r, w') ->
  r <> inr EarlyShutdown /\
  exists new, w_out w' = w_out w ++ new /\
              forall p, ~ In (MStat (inr (DestinationExists p))) new.
Proof.
  intros Hnc Hes H. unfold tree_walker, ok_or, bind in H.
  destruct (last_component source) as [sd|].
  2:{ unfold throw in H. inversion H; subst. split; [intro Hr; discriminate Hr|].
      exists []. rewrite app_nil_r. split; [reflexivity | intros ? []]. }
  unfold ret in H. cbv beta iota zeta in H.
  destruct (gitignore opts && negb ib).
  { unfold throw in H. inversion H; subst. split; [intro Hr; discriminate Hr|].
    exists []. rewrite app_nil_r. split; [reflexivity | intros ? []]. }
  cbv beta iota zeta in H.
  destruct (walk_entries sa wa view 1 source (target_base_of (view 0) sd opts) opts updates
              entries w) as [[[[]|err] w1]|] eqn:E; try discriminate H.
  - destruct (walk_entries_clobber _ _ _ _ _ _ _ Hnc _ _ _ _ _ Hes E) as [_ [n [Ho Hn]]].
    unfold send_work in H. destruct (wa (w_nwork w1)); inversion H; subst; simpl;
      (split; [intro Hr; discriminate Hr|]).
    + exists (n ++ [MWork End]). rewrite Ho, app_assoc. split; [reflexivity|].
      intros p Hin. apply in_app_or in Hin.
      destruct Hin as [Hin|[Hin|[]]]; [exact (Hn p Hin) | discriminate Hin].
    + exists n. split; assumption.
  - inversion H; subst. exact (walk_entries_clobber _ _ _ _ _ _ _ Hnc _ _ _ _ _ Hes E).
Qed.

Lemma tree_walker_clobber_never_aborts_witness :
  exists r w',
    tree_walker alive alive (fun _ => ex_tree) ex_src (opts_into ex_d false) true
                ex_entries_nofifo walk_updater ex_world = Some (r, w') /\
    r <> inr EarlyShutdown /\
    exists new, w_out w' = w_out ex_world ++ new /\
                forall p, ~ In (MStat (inr (DestinationExists p))) new.
Proof.
  do 2 eexists. split; [vm_compute; reflexivity|].
  apply (tree_walker_clobber_never_aborts alive alive (fun _ => ex_tree) ex_src
           (opts_into ex_d false) true ex_entries_nofifo walk_updater ex_world).
  - reflexivity.
  - simpl. intros [H|[H|[H|[]]]]; discriminate H.
  - vm_compute. reflexivity.
Defined.

(** ** [copy_tree] *)

Lemma drain_ok :
  forall s copied total,
  (total < 2 ^ 64)%N -> (copied < 2 ^ 64)%N ->
  Forall (fun m => exists u, m = inl u) s ->
  fst (drain s copied total) = inl tt /\
  bar_after (snd (drain s copied total)) total copied
  = (((total + size_total s) mod 2 ^ 64)%N, ((copied + copied_total s) mod 2 ^ 64)%N) /\
  exists evs, snd (drain s copied total) = evs ++ [PbEnd].
Proof.
  induction s as [|m s IH]; intros copied total Ht Hc H.
  - simpl. rewrite !N.add_0_r, !N.mod_small by assumption.
    split; [reflexivity|]. split; [reflexivity|].
    exists []. reflexivity.
  - assert (Hm : (2 ^ 64 <> 0)%N) by (intro E; discriminate E).
    inversion H as [|m' s' [u Hu] Hs]; subst. destruct u as [n|n]; simpl.
    + destruct (IH copied (add_u64 total n)) as [Hr [Hb [evs He]]];
        [apply N.mod_upper_bound; exact Hm | exact Hc | exact Hs |].
      destruct (drain s copied (add_u64 total n)) as [r evs0]. simpl in *.
      split; [exact Hr|]. split.
      * rewrite Hb. unfold add_u64. rewrite N.Div0.add_mod_idemp_l, N.add_assoc.
        reflexivity.
      * rewrite He. exists (SetSize (add_u64 total n) :: evs). reflexivity.
    + destruct (IH (add_u64 copied n) total) as [Hr [Hb [evs He]]];
        [exact Ht | apply N.mod_upper_bound; exact Hm | exact Hs |].
      destruct (drain s (add_u64 copied n) total) as [r evs0]. simpl in *.
      split; [exact Hr|]. split.
      * rewrite Hb. unfold add_u64. rewrite N.Div0.add_mod_idemp_l, N.add_assoc.
        reflexivity.
      * rewrite He. exists (SetPosition (add_u64 copied n) :: evs). reflexivity.
Qed.

(** On a stats stream without an error, [copy_tree] succeeds, ends the
    progress bar as its last step, and leaves the bar with length the sum
    of the [Size] deltas and position the sum of the [Copied] deltas, each
    sum taken modulo 2^64 (the [u64] counters of the progress bar wrap). *)
Theorem copy_tree_progress_totals s :
  Forall (fun m => exists u, m = inl u) s ->
  fst (copy_tree s) = inl tt /\
  bar_after (snd (copy_tree s)) 0 0
  = ((size_total s mod 2 ^ 64)%N, (copied_total s mod 2 ^ 64)%N) /\
  exists evs, snd (copy_tree s) = evs ++ [PbEnd].
Proof.
  intro H. destruct (drain_ok s 0 0 eq_refl eq_refl H) as [Hr [Hb [evs He]]].
  unfold copy_tree. destruct (drain s 0 0) as [r evs0]. simpl in *.
  split; [exact Hr|]. split; [exact Hb|].
  exists (Spawn ExecutorStage :: Spawn WalkerStage :: evs). rewrite He. reflexivity.
Qed.

Lemma copy_tree_progress_totals_witness :
  fst (copy_tree [inl (Size 5); inl (Copied 2); inl (Size 1); inl (Copied 3)]) = inl tt /\
  bar_after (snd (copy_tree [inl (Size 5); inl (Copied 2); inl (Size 1); inl (Copied 3)])) 0 0
  = ((6 mod 2 ^ 64)%N, (5 mod 2 ^ 64)%N) /\
  exists evs,
    snd (copy_tree [inl (Size 5); inl (Copied 2); inl (Size 1); inl (Copied 3)])
    = evs ++ [PbEnd].
Proof.
  apply (copy_tree_progress_totals [inl (Size 5); inl (Copied 2); inl (Size 1); inl (Copied 3)]).
  repeat constructor; eexists; reflexivity.
Defined.

Lemma drain_ends_bar :
  forall s copied total,
  In PbEnd (snd (drain s copied total)) <-> (forall e, ~ In (inr e) s).
Proof.
  induction s as [|m s IH]; intros copied total; simpl.
  - split; [intros _ e [] | intros _; now left].
  - destruct m as [[n|n]|e].
    + specialize (IH copied (add_u64 total n)).
      destruct (drain s copied (add_u64 total n)) as [r evs]. simpl in *.
      split.
      * intros [Hc|Hin] e' [He|He]; [discriminate Hc|discriminate Hc|discriminate He|].
        exact (proj1 IH Hin e' He).
      * intro Hno. right. apply IH. intros e' He. exact (Hno e' (or_intror He)).
    + specialize (IH (add_u64 copied n) total).
      destruct (drain s (add_u64 copied n) total) as [r evs]. simpl in *.
      split.
      * intros [Hc|Hin] e' [He|He]; [discriminate Hc|discriminate Hc|discriminate He|].
        exact (proj1 IH Hin e' He).
      * intro Hno. right. apply IH. intros e' He. exact (Hno e' (or_intror He)).
    + split; [intros []|]. intro Hno. exfalso. exact (Hno e (or_introl eq_refl)).
Qed.

(** [pb.end()] is reached exactly when the stats stream holds no error:
    an error makes [copy_tree] return before ending the progress bar. *)
Theorem copy_tree_ends_bar_iff s :
  In PbEnd (snd (copy_tree s)) <-> (forall e, ~ In (inr e) s).
Proof.
  unfold copy_tree. pose proof (drain_ends_bar s 0 0) as H.
  destruct (drain s 0 0) as [r evs]. simpl in *.
  split.
  - intros [Hc|[Hc|Hin]]; [discriminate Hc|discriminate Hc|exact (proj1 H Hin)].
  - intro Hno. right. right. exact (proj2 H Hno).
Qed.

(** ** [copy_single_file] *)

(** When the destination is a directory and the source has no file name
    (it is a root, or ends in [..]), [copy_single_file] fails with the
    unknown-filename error before any filesystem operation. *)
Theorem copy_single_file_no_filename fault xfer sa batch fuel source opts w :
  is_dir (w_fs w) (dest opts) = true ->
  file_name source = None ->
  copy_single_file fault xfer sa batch fuel source opts w = Some (inr UnknownFilename, w).
Proof.
  intros Hd Hn. unfold copy_single_file, get_fs, bind, ok_or, throw. cbv beta iota.
  rewrite Hd, Hn. reflexivity.
Qed.

Lemma copy_single_file_no_filename_witness :
  copy_single_file no_fault xfer_all alive 2 10 (ex_a ++ [ParentDir]) (opts_into [RootDir] false)
    ex_w = Some (inr UnknownFilename, ex_w).
Proof.
  apply copy_single_file_no_filename; vm_compute; reflexivity.
Defined.

(** With no-clobber set, when the destination computed by
    [copy_single_file] is an existing regular file (symbolic links followed),
    the call fails at once with the already-exists error, before opening
    either file: the world, and so the destination's content, is left
    exactly as it was. *)
Theorem copy_single_file_noclobber fault xfer sa batch fuel source opts w dst :
  noclobber opts = true ->
  single_dest (w_fs w) source opts = Some dst ->
  is_file (w_fs w) dst = true ->
  copy_single_file fault xfer sa batch fuel source opts w
  = Some (inr (IoError AlreadyExists), w).
Proof.
  intros Hnc Hd Hf. unfold single_dest in Hd.
  unfold copy_single_file, bind, get_fs, ok_or, ret, throw. cbv beta iota.
  destruct (is_dir (w_fs w) (dest opts)).
  - destruct (file_name source) as [fname|]; [|discriminate Hd].
    injection Hd as <-. unfold join in *. cbv beta in Hf |- *. rewrite Hf, Hnc. reflexivity.
  - inversion Hd; subst. rewrite Hf, Hnc. reflexivity.
Qed.

Lemma copy_single_file_noclobber_witness :
  copy_single_file no_fault xfer_all alive 2 10 ex_a (opts_into [RootDir] true) ex_w1
  = Some (inr (IoError AlreadyExists), ex_w1).
Proof.
  apply (copy_single_file_noclobber no_fault xfer_all alive 2 10 ex_a (opts_into [RootDir] true)
           ex_w1 ex_a); vm_compute; reflexivity.
Defined.
